(** * docker-flow-swarm-listener: the BigIp route synchronizer and the
      reconciliation loop, embedded from [bigip.go] and from [main].

    Go values are modelled as follows.
    - [string] is a byte string ([String.string]); [map[string]T] is
      [gmap string T]; a slice is a [list], except in [removeRecords],
      whose result shares the backing array of its argument and is
      modelled on that array.
    - [error] is an inductive type with one constructor per [fmt.Errorf]
      site; a [nil] error is [None].
    - A function that may panic returns an [Outcome]; the receiver
      [*BigIp], the HTTP peer and the list of requests that reached
      [Client.Do] are threaded as an explicit state [Sys].
    - [encoding/json], [net/url], the case tables of [unicode] and the
      HTTP peer are parameters of the development; [log.Printf] has no
      effect on any value and is left out. *)

From stdpp Require Import base option list gmap strings.
From Stdlib Require Import ZArith Ascii.

(** ** Library functions of package [strings] *)

Module strings.

(** [strings.ToLower].  On a string of ASCII bytes the library moves the
    letters [A]..[Z] to [a]..[z] and keeps every other byte.  On a string
    with a byte above 127 it returns [strings.Map(unicode.ToLower, s)];
    the case tables of package [unicode] are not embedded, and that
    result is the parameter [MapToLower]. *)
Class Unicode := {
  MapToLower : string → string
}.

Definition lowerByte (c : ascii) : ascii :=
  let n := N_of_ascii c in
  if ((65 <=? n) && (n <=? 90))%N then ascii_of_N (n + 32) else c.

Fixpoint isASCII (s : string) : bool :=
  match s with
  | EmptyString => true
  | String c r => (N_of_ascii c <? 128)%N && isASCII r
  end.

Fixpoint lowerASCII (s : string) : string :=
  match s with
  | EmptyString => EmptyString
  | String c r => String (lowerByte c) (lowerASCII r)
  end.

Definition ToLower `{U : Unicode} (s : string) : string :=
  if isASCII s then lowerASCII s else MapToLower s.

(** [strings.Split(s, sep)] for a one-byte separator: the substrings
    between the separators, [count + 1] of them, so never an empty
    slice. *)
Fixpoint Split (s : string) (sep : ascii) : list string :=
  match s with
  | EmptyString => [EmptyString]
  | String c r =>
      if decide (c = sep) then EmptyString :: Split r sep
      else match Split r sep with
           | h :: t => String c h :: t
           | [] => [String c EmptyString]
           end
  end.

Definition bytes (l : list nat) : string :=
  fold_right (λ n s, String (ascii_of_nat n) s) EmptyString l.

(** The white space of [strings.TrimSpace] is that of [unicode.IsSpace]:
    U+0009..U+000D, U+0020, U+0085, U+00A0 and, beyond Latin-1, the code
    points with the White_Space property.  A Go string is a byte string
    and the library reads the runes off it as UTF-8, forwards at the
    front and backwards at the end; bytes that encode no rune read as
    U+FFFD, which is no white space.  So a string begins (ends) with a
    white space rune exactly when it begins (ends) with one of these
    byte sequences. *)
Definition whiteSpace : list string :=
  bytes <$>
    [ [9]; [10]; [11]; [12]; [13]; [32];      (* U+0009..U+000D, U+0020 *)
      [194; 133]; [194; 160];                 (* U+0085, U+00A0 *)
      [225; 154; 128];                        (* U+1680 *)
      [226; 128; 128]; [226; 128; 129]; [226; 128; 130]; [226; 128; 131];
      [226; 128; 132]; [226; 128; 133]; [226; 128; 134]; [226; 128; 135];
      [226; 128; 136]; [226; 128; 137]; [226; 128; 138];
                                              (* U+2000..U+200A *)
      [226; 128; 168]; [226; 128; 169];       (* U+2028, U+2029 *)
      [226; 128; 175];                        (* U+202F *)
      [226; 129; 159];                        (* U+205F *)
      [227; 128; 128] ].                      (* U+3000 *)

(** What follows [p] in [s], when [s] begins with [p]. *)
Fixpoint cutPrefix (p s : string) : option string :=
  match p with
  | EmptyString => Some s
  | String a p' =>
      match s with
      | String b s' => if decide (a = b) then cutPrefix p' s' else None
      | EmptyString => None
      end
  end.

Fixpoint cutAny (ws : list string) (s : string) : option string :=
  match ws with
  | [] => None
  | w :: ws' =>
      match cutPrefix w s with
      | Some r => Some r
      | None => cutAny ws' s
      end
  end.

(** What follows the white space rune [s] begins with, if any. *)
Definition cutSpace (s : string) : option string := cutAny whiteSpace s.

(** The leading white space goes rune by rune; there are no more runes
    than bytes. *)
Fixpoint trimLeft_loop (n : nat) (s : string) : string :=
  match n with
  | O => s
  | S n' =>
      match cutSpace s with
      | Some r => trimLeft_loop n' r
      | None => s
      end
  end.

Definition trimLeft (s : string) : string := trimLeft_loop (String.length s) s.

(** The trailing white space: what is left of [String c r] is [c] before
    what is left of [r], unless that is one white space rune, which then
    goes too. *)
Fixpoint trimRight (s : string) : string :=
  match s with
  | EmptyString => EmptyString
  | String c r =>
      let t := String c (trimRight r) in
      if bool_decide (t ∈ whiteSpace) then EmptyString else t
  end.

Definition TrimSpace (s : string) : string := trimRight (trimLeft s).

(** [s] is white space runes and nothing else. *)
Inductive AllSpace : string → Prop :=
  | AllSpace_nil : AllSpace EmptyString
  | AllSpace_cons w s : w ∈ whiteSpace → AllSpace s → AllSpace (w +:+ s).

Definition StartsWithSpace (s : string) : Prop :=
  ∃ w r, w ∈ whiteSpace ∧ s = w +:+ r.

Definition EndsWithSpace (s : string) : Prop :=
  ∃ l w, w ∈ whiteSpace ∧ s = l +:+ w.

(** [t] is [s] with the white space around it taken off. *)
Definition Trimmed (s t : string) : Prop :=
  (∃ l r, s = l +:+ t +:+ r ∧ AllSpace l ∧ AllSpace r)
  ∧ ¬ StartsWithSpace t
  ∧ ¬ EndsWithSpace t.

End strings.

(** ** Constants and data types of [bigip.go] *)

Definition DG_PATH : string := "/mgmt/tm/ltm/data-group/internal/".
Definition SERVICE_PATH_LABEL : string := "com.df.servicePath".
Definition BIGIP_HEADER : string := "X-f5key".
Definition BIGIP_KEY_FILE : string := "/run/secrets/bigip-key".

Definition StatusOK : Z := 200.

Record Config := mkConfig {
  Host : string;
  DataGroupName : string;   (* field [DataGroup], json [BIGIP_DG] *)
  PoolPattern : string
}.

Record Record_ := mkRecord {
  Name : string;
  Data : string
}.

Record DataGroup := mkDataGroup {
  Records : list Record_
}.

#[global] Instance Record_eq_dec : EqDecision Record_.
Proof. solve_decision. Defined.

#[global] Instance DataGroup_eq_dec : EqDecision DataGroup.
Proof. solve_decision. Defined.

(** [swarm.Service], reduced to what [AddRoutes] reads:
    [s.Spec.Name] and [s.Spec.Labels]. *)
Record ServiceSpec := mkSpec {
  SpecName : string;               (* field [Name] *)
  Labels : gmap string string
}.

Record Service := mkService {
  Spec : ServiceSpec
}.

(** The receiver.  [Client] is the HTTP peer and lives in [Sys]. *)
Record BigIp := mkBigIp {
  Url : string;
  Key : string;
  Services : gmap string (list string);
  Pattern : string
}.

Definition setServices (b : BigIp) (m : gmap string (list string)) : BigIp :=
  {| Url := Url b; Key := Key b; Services := m; Pattern := Pattern b |}.

(** ** Pure helpers of [bigip.go] *)

(** [getRecords]: one record per non-empty path. *)
Fixpoint getRecords (paths : list string) (pattern : string) : list Record_ :=
  match paths with
  | [] => []
  | path :: rest =>
      if (0 <? String.length path)%nat
      then {| Name := path; Data := pattern |} :: getRecords rest pattern
      else getRecords rest pattern
  end.

(** [containsRecord]: is there a target with the candidate's name? *)
Fixpoint containsRecord (target : list Record_) (candidate : Record_) : bool :=
  match target with
  | [] => false
  | t :: rest =>
      if decide (Name t = Name candidate) then true
      else containsRecord rest candidate
  end.

(** [removeRecords] filters in place: [removed := from[:0]] has length 0
    and the capacity of [from], so every [append] writes into the array
    that the [range] loop is reading.  [arr] is that array, [i] the index
    the loop reads next and [k] the length of [removed]; [k] never
    exceeds [i], so no [append] outgrows the array and moves the slice. *)
Fixpoint removeRecords_loop (remove : list Record_) (n : nat) (i k : nat)
    (arr : list Record_) : nat * list Record_ :=
  match n with
  | O => (k, arr)
  | S n' =>
      match arr !! i with
      | Some r =>
          if negb (containsRecord remove r)
          then removeRecords_loop remove n' (S i) (S k) (<[k := r]> arr)
          else removeRecords_loop remove n' (S i) k arr
      | None => (k, arr)
      end
  end.

Definition removeRecords (from remove : list Record_) : list Record_ :=
  let '(k, arr) := removeRecords_loop remove (length from) 0 0 from in
  take k arr.

(** The collection the remove step is meant to produce, as the
    specification words it: the fetched records whose name is the name of
    no candidate. *)
Definition retained (from remove : list Record_) : list Record_ :=
  filter (λ r, Name r ∉ (Name <$> remove)) from.

(** ** Errors, panics and the HTTP exchange *)

Inductive Method := GET | PUT.

Record Request := mkRequest {
ReqMethod : Method;
ReqUrl : string;
ReqHeader : list (string * string);
ReqBody : string
}.

Record Response := mkResponse {
StatusCode : Z;
Body : string
}.

#[global] Instance Method_eq_dec : EqDecision Method.
Proof. solve_decision. Defined.

#[global] Instance Request_eq_dec : EqDecision Request.
Proof. solve_decision. Defined.

(** One constructor per [fmt.Errorf] of [bigip.go]; [ErrLib] stands for
  an error value made by a library ([os], [net/http], [encoding/json]). *)
Inductive error :=
| ErrGet (url cause : string)
| ErrUnmarshal (url : string)
| ErrMarshal (dg : DataGroup)
| ErrPut (url cause : string)
| ErrStatus (url : string) (code : Z) (body : string)
| ErrAddRoutes
| ErrRemoveRoutes
| ErrConfigStatus (configApi : string)
| ErrMissingConfigApi
| ErrLib (cause : string).

Inductive Panic :=
| PanicErr (e : error)      (* [checkErr]: [panic(e)] *)
| PanicNilDeref.            (* a method call through a nil pointer *)

Inductive Outcome (A : Type) :=
| Returned (a : A)
| Panicked (p : Panic).

Arguments Returned {A} a.
Arguments Panicked {A} p.

(** What the program takes from its libraries and from the network. *)
Class Platform := {
  (** the state of whatever answers [Client.Do] *)
  Peer : Type;
  (** [Client.Do]: a transport error (its text) or a response with the
      body as [ioutil.ReadAll] returns it *)
  clientDo : Request → Peer → (string + Response) * Peer;
  (** does [http.NewRequest] accept this URL *)
  urlParses : string → bool;
  (** [json.Unmarshal] into a [DataGroup]; [None] is an error *)
  jsonUnmarshal : string → option DataGroup;
  (** [json.Marshal] of a [DataGroup]; [None] is an error *)
  jsonMarshal : DataGroup → option string;
  (** the case tables of package [unicode], for [strings.ToLower] *)
  unicode :: strings.Unicode
}.

Section RouteSynchronizer.

Context `{P : Platform}.

(** The receiver, the peer, and every request handed to [Client.Do],
    oldest first. *)
Record Sys := mkSys {
  bigip : BigIp;
  peer : Peer;
  wire : list Request
}.

Definition M (A : Type) : Type := Sys → Outcome A * Sys.

Definition ret {A} (a : A) : M A := λ s, (Returned a, s).

Definition bind {A B} (m : M A) (f : A → M B) : M B :=
  λ s, match m s with
       | (Returned a, s') => f a s'
       | (Panicked p, s') => (Panicked p, s')
       end.

Notation "'do' x <- m ; k" := (bind m (λ x, k))
  (at level 10, x name, m at level 100, k at level 200).

Definition getBigIp : M BigIp := λ s, (Returned (bigip s), s).

Definition putServices (m : gmap string (list string)) : M unit :=
  λ s, (Returned tt,
        {| bigip := setServices (bigip s) m; peer := peer s; wire := wire s |}).

(** [b.Client.Do(req)] *)
Definition Do (req : Request) : M (string + Response) :=
  λ s, let '(r, p') := clientDo req (peer s) in
       (Returned r,
        {| bigip := bigip s; peer := p'; wire := wire s ++ [req] |}).

(** [http.NewRequest]: the request, or [None] for [(nil, err)]. *)
Definition NewRequest (method : Method) (url body : string) : option Request :=
  if urlParses url
  then Some {| ReqMethod := method; ReqUrl := url; ReqHeader := [];
               ReqBody := body |}
  else None.

Definition HeaderAdd (req : Request) (key value : string) : Request :=
  {| ReqMethod := ReqMethod req; ReqUrl := ReqUrl req;
     ReqHeader := ReqHeader req ++ [(key, value)];
     ReqBody := ReqBody req |}.

(** [newRequest] adds the headers before it looks at the error, so a
    URL that does not parse makes it dereference a nil request.  The
    header names are kept as written ([net/http] stores them in canonical
    case). *)
Definition newRequest (b : BigIp) (method : Method) (body : string)
  : Outcome Request :=
  match NewRequest method (Url b) body with
  | Some req =>
      let req := HeaderAdd req "Content-Type" "application/json" in
      let req := HeaderAdd req BIGIP_HEADER (Key b) in
      Returned req
  | None => Panicked PanicNilDeref
  end.

Definition liftO {A} (o : Outcome A) : M A := λ s, (o, s).

(** The append loop of [updateDataGroup]. *)
Definition appendRecords (into records : list Record_) : list Record_ :=
  fold_left (λ acc r, acc ++ [r]) records into.

(** The [if remove ... else ...] of [updateDataGroup]: the collection
    that is written back. *)
Definition applyRecords (remove : bool) (dg : DataGroup)
    (records : list Record_) : DataGroup :=
  if remove
  then {| Records := removeRecords (Records dg) records |}
  else {| Records := appendRecords (Records dg) records |}.

Definition updateDataGroup (paths : list string) (remove : bool)
  : M (option error) :=
  do b <- getBigIp;
  do req <- liftO (newRequest b GET "");
  do got <- Do req;
  match got with
  | inl cause => ret (Some (ErrGet (Url b) cause))
  | inr resp =>
      if decide (StatusCode resp = StatusOK) then
        match jsonUnmarshal (Body resp) with
        | None => ret (Some (ErrUnmarshal (Url b)))
        | Some dg =>
            let records := getRecords paths (Pattern b) in
            let dg := applyRecords remove dg records in
            match jsonMarshal dg with
            | None => ret (Some (ErrMarshal dg))
            | Some payload =>
                do req <- liftO (newRequest b PUT payload);
                do put <- Do req;
                match put with
                | inl cause => ret (Some (ErrPut (Url b) cause))
                | inr resp =>
                    if decide (StatusCode resp ≠ StatusOK)
                    then ret (Some (ErrStatus (Url b) (StatusCode resp)
                                      (Body resp)))
                    else ret None
                end
            end
        end
      else ret (Some (ErrStatus (Url b) (StatusCode resp) (Body resp)))
  end.

(** What one turn of the loop of [AddRoutes] or [RemoveRoutes] did
    with its item. *)
Inductive ItemResult :=
  | Skipped                 (* the [if ..., ok] guard was false *)
  | Failed (e : error)      (* [updateDataGroup] returned [e] *)
  | Applied.                (* it returned nil and the cache was updated *)

(** The body of the loop of [AddRoutes]. *)
Definition addRoute (s : Service) : M ItemResult :=
  match Labels (Spec s) !! SERVICE_PATH_LABEL with
  | Some label =>
      let label := strings.ToLower label in
      let paths := strings.Split label "," in
      do err <- updateDataGroup paths false;
      match err with
      | Some e => ret (Failed e)
      | None =>
          do b <- getBigIp;
          do _ <- putServices (<[SpecName (Spec s) := paths]> (Services b));
          ret Applied
      end
  | None => ret Skipped
  end.

(** The body of the loop of [RemoveRoutes]. *)
Definition removeRoute (s : string) : M ItemResult :=
  do b <- getBigIp;
  match Services b !! s with
  | Some paths =>
      do err <- updateDataGroup paths true;
      match err with
      | Some e => ret (Failed e)
      | None =>
          do b <- getBigIp;
          do _ <- putServices (delete s (Services b));
          ret Applied
      end
  | None => ret Skipped
  end.

Definition collect (errs : list error) (r : ItemResult) : list error :=
  match r with
  | Failed e => errs ++ [e]
  | _ => errs
  end.

Fixpoint AddRoutes_loop (services : list Service) (errs : list error)
  : M (list error) :=
  match services with
  | [] => ret errs
  | s :: rest =>
      do r <- addRoute s;
      AddRoutes_loop rest (collect errs r)
  end.

(** [AddRoutes]; [services] is the slice the argument points to. *)
Definition AddRoutes (services : list Service) : M (option error) :=
  do errs <- AddRoutes_loop services [];
  if (0 <? length errs)%nat then ret (Some ErrAddRoutes) else ret None.

Fixpoint RemoveRoutes_loop (services : list string) (errs : list error)
  : M (list error) :=
  match services with
  | [] => ret errs
  | s :: rest =>
      do r <- removeRoute s;
      RemoveRoutes_loop rest (collect errs r)
  end.

Definition RemoveRoutes (services : list string) : M (option error) :=
  do errs <- RemoveRoutes_loop services [];
  if (0 <? length errs)%nat then ret (Some ErrRemoveRoutes) else ret None.

End RouteSynchronizer.

(** ** Batches seen item by item *)

Section Items.

Context `{P : Platform}.

(** One turn of either loop. *)
Inductive Item :=
  | AddItem (s : Service)
  | RemoveItem (name : string).

Definition itemName (it : Item) : string :=
  match it with
  | AddItem s => SpecName (Spec s)
  | RemoveItem name => name
  end.

Definition step (it : Item) : M ItemResult :=
  match it with
  | AddItem s => addRoute s
  | RemoveItem name => removeRoute name
  end.

(** The turns taken on a list of items, each with its result, and the
    state they leave.  A panic ends the list: the process is gone. *)
Fixpoint steps (its : list Item) (sys : Sys) : list (Item * ItemResult) * Sys :=
  match its with
  | [] => ([], sys)
  | it :: rest =>
      match step it sys with
      | (Returned r, sys1) =>
          let '(log, sys2) := steps rest sys1 in ((it, r) :: log, sys2)
      | (Panicked _, sys1) => ([], sys1)
      end
  end.

(** A call of one of the two entry points. *)
Inductive Call :=
  | CallAdd (services : list Service)
  | CallRemove (names : list string).

Definition callItems (c : Call) : list Item :=
  match c with
  | CallAdd services => AddItem <$> services
  | CallRemove names => RemoveItem <$> names
  end.

Definition runCall (c : Call) : M (option error) :=
  match c with
  | CallAdd services => AddRoutes services
  | CallRemove names => RemoveRoutes names
  end.

(** A sequence of calls, each return value dropped as [main] drops it. *)
Fixpoint runCalls (cs : list Call) : M unit :=
  match cs with
  | [] => ret tt
  | c :: rest => bind (runCall c) (λ _, runCalls rest)
  end.

(** The ways the Route Update Protocol can fail for [paths], read off
    the peer: what the GET is answered, and what the PUT is. *)
Inductive ProtocolFails (paths : list string) (remove : bool) (sys : Sys)
  : error → Prop :=
  | GetTransportFailure get cause p1 :
      newRequest (bigip sys) GET "" = Returned get →
      clientDo get (peer sys) = (inl cause, p1) →
      ProtocolFails paths remove sys (ErrGet (Url (bigip sys)) cause)
  | GetStatusFailure get resp p1 :
      newRequest (bigip sys) GET "" = Returned get →
      clientDo get (peer sys) = (inr resp, p1) →
      StatusCode resp ≠ StatusOK →
      ProtocolFails paths remove sys
        (ErrStatus (Url (bigip sys)) (StatusCode resp) (Body resp))
  | GetBodyFailure get resp p1 :
      newRequest (bigip sys) GET "" = Returned get →
      clientDo get (peer sys) = (inr resp, p1) →
      StatusCode resp = StatusOK →
      jsonUnmarshal (Body resp) = None →
      ProtocolFails paths remove sys (ErrUnmarshal (Url (bigip sys)))
  | EncodeFailure get resp p1 dg :
      newRequest (bigip sys) GET "" = Returned get →
      clientDo get (peer sys) = (inr resp, p1) →
      StatusCode resp = StatusOK →
      jsonUnmarshal (Body resp) = Some dg →
      jsonMarshal
        (applyRecords remove dg (getRecords paths (Pattern (bigip sys))))
        = None →
      ProtocolFails paths remove sys
        (ErrMarshal
           (applyRecords remove dg (getRecords paths (Pattern (bigip sys)))))
  | PutTransportFailure get resp p1 dg payload put cause p2 :
      newRequest (bigip sys) GET "" = Returned get →
      clientDo get (peer sys) = (inr resp, p1) →
      StatusCode resp = StatusOK →
      jsonUnmarshal (Body resp) = Some dg →
      jsonMarshal
        (applyRecords remove dg (getRecords paths (Pattern (bigip sys))))
        = Some payload →
      newRequest (bigip sys) PUT payload = Returned put →
      clientDo put p1 = (inl cause, p2) →
      ProtocolFails paths remove sys (ErrPut (Url (bigip sys)) cause)
  | PutStatusFailure get resp p1 dg payload put resp2 p2 :
      newRequest (bigip sys) GET "" = Returned get →
      clientDo get (peer sys) = (inr resp, p1) →
      StatusCode resp = StatusOK →
      jsonUnmarshal (Body resp) = Some dg →
      jsonMarshal
        (applyRecords remove dg (getRecords paths (Pattern (bigip sys))))
        = Some payload →
      newRequest (bigip sys) PUT payload = Returned put →
      clientDo put p1 = (inr resp2, p2) →
      StatusCode resp2 ≠ StatusOK →
      ProtocolFails paths remove sys
        (ErrStatus (Url (bigip sys)) (StatusCode resp2) (Body resp2)).

(** The one way it succeeds: both exchanges are answered 200 and the
    fetched body decodes. *)
Inductive ProtocolSucceeds (paths : list string) (remove : bool) (sys : Sys)
  : Prop :=
  | BothAnswered200 get resp p1 dg payload put resp2 p2 :
      newRequest (bigip sys) GET "" = Returned get →
      clientDo get (peer sys) = (inr resp, p1) →
      StatusCode resp = StatusOK →
      jsonUnmarshal (Body resp) = Some dg →
      jsonMarshal
        (applyRecords remove dg (getRecords paths (Pattern (bigip sys))))
        = Some payload →
      newRequest (bigip sys) PUT payload = Returned put →
      clientDo put p1 = (inr resp2, p2) →
      StatusCode resp2 = StatusOK →
      ProtocolSucceeds paths remove sys.

(** The paths the protocol is run with for an item, if it is run. *)
Definition itemPaths (it : Item) (b : BigIp) : option (list string) :=
  match it with
  | AddItem s =>
      (λ label, strings.Split (strings.ToLower label) ",") <$>
        Labels (Spec s) !! SERVICE_PATH_LABEL
  | RemoveItem name => Services b !! name
  end.

Definition isRemove (it : Item) : bool :=
  match it with AddItem _ => false | RemoveItem _ => true end.

(** The cache update of a turn that succeeded. *)
Definition commit (it : Item) (paths : list string)
    (m : gmap string (list string)) : gmap string (list string) :=
  match it with
  | AddItem s => <[SpecName (Spec s) := paths]> m
  | RemoveItem name => delete name m
  end.

Definition callError (c : Call) : error :=
  match c with
  | CallAdd _ => ErrAddRoutes
  | CallRemove _ => ErrRemoveRoutes
  end.




(** [req] is a request as [newRequest] makes them for [b]: to the URL
    of [b], with the content type and the key of [b] as its headers. *)
Definition carriesKey (b : BigIp) (req : Request) : Prop :=
  ReqUrl req = Url b
  ∧ ReqHeader req
    = [("Content-Type", "application/json"); (BIGIP_HEADER, Key b)].

(** The errors of the turns that failed, in order: what the loops
    gather in [errs]. *)
Definition failures (log : list (Item * ItemResult)) : list error :=
  omap (λ '(_, r), match r with Failed e => Some e | _ => None end) log.

(** The value a call returns once its turns are known. *)
Definition verdict (c : Call) (log : list (Item * ItemResult)) : option error :=
  if (0 <? length (failures log))%nat then Some (callError c) else None.

End Items.

(** ** Construction: [readConfig], [checkErr], [NewBigIp], [NewBigIpFromEnv] *)

(** What the process finds when it starts. *)
Class Machine := {
  (** the environment; [os.Getenv] gives the empty string for a
      variable that is not set *)
  Environ : gmap string string;
  (** [ioutil.ReadFile] *)
  ReadFile : string → error + string;
  (** [http.Get], with the body as [ioutil.ReadAll] returns it *)
  httpGet : string → error + Response;
  (** [json.Unmarshal] into a [Config] *)
  jsonUnmarshalConfig : string → error + Config
}.

(** What construction reads from outside the process. *)
Inductive IO :=
  | IoReadFile (path : string)
  | IoHttpGet (url : string).

Section Construction.

Context `{H : Machine}.

Definition Getenv (key : string) : string :=
  default EmptyString (Environ !! key).

Definition checkErr (e : option error) : Outcome unit :=
  match e with
  | Some e => Panicked (PanicErr e)
  | None => Returned tt
  end.

(** [readConfig]; a [checkErr(err)] on a non-nil [err] is written as the
    panic it is. *)
Definition readConfig (configApi : string) : Outcome Config * list IO :=
  let io := [IoHttpGet configApi] in
  match httpGet configApi with
  | inl err => (Panicked (PanicErr err), io)
  | inr res =>
      let decode :=
        match jsonUnmarshalConfig (Body res) with
        | inl err => (Panicked (PanicErr err), io)
        | inr config => (Returned config, io)
        end in
      if decide (StatusCode res ≠ StatusOK)
      then match checkErr (Some (ErrConfigStatus configApi)) with
           | Panicked p => (Panicked p, io)
           | Returned _ => decode
           end
      else decode
  end.

Definition NewBigIp (configApi keyFile : string) : Outcome BigIp * list IO :=
  let io := [IoReadFile keyFile] in
  match ReadFile keyFile with
  | inl err => (Panicked (PanicErr err), io)
  | inr key =>
      match readConfig configApi with
      | (Panicked p, io') => (Panicked p, io ++ io')
      | (Returned config, io') =>
          (Returned {| Url := (Host config +:+ DG_PATH) +:+ DataGroupName config;
                       Key := strings.TrimSpace key;
                       Services := ∅;
                       Pattern := PoolPattern config |},
           io ++ io')
      end
  end.

Definition NewBigIpFromEnv : Outcome BigIp * list IO :=
  let configApi := Getenv "DF_CONFIG_API" in
  let construct :=
    let keyFile := Getenv "DF_BIGIP_KEY_FILE" in
    let keyFile := if (String.length keyFile =? 0)%nat then BIGIP_KEY_FILE
                   else keyFile in
    NewBigIp configApi keyFile in
  if (String.length configApi =? 0)%nat
  then match checkErr (Some ErrMissingConfigApi) with
       | Panicked p => (Panicked p, [])
       | Returned _ => construct
       end
  else construct.

End Construction.

(** ** The reconciliation loop of [main] *)

(** The packages [service] and [metrics] and the flags of [getArgs] are
    parameters, with the signatures [main] uses them at: the snapshot
    source, the diff engine and the notification dispatcher work on a
    state [Ext] of their own (the Service Cache, the proxy, the clock,
    whatever the inbound listener does in between). *)
Class Collaborators := {
  Ext : Type;
  CreateServiceAddr : string;
  Retry : Z;
  RetryInterval : Z;
  Interval : Z;
  GetServices : Ext → (list Service * option error) * Ext;
  GetNewServices : list Service → Ext → (list Service * option error) * Ext;
  ServicesCreate : list Service → Z → Z → Ext → option error * Ext;
  GetRemovedServices : list Service → Ext → list string * Ext;
  ServicesRemove : list string → Z → Z → Ext → option error * Ext;
  (** [len(service.CachedServices)] *)
  CachedServices : Ext → nat
}.

(** What [main] calls, in the order it calls it. *)
Inductive Event :=
  | EvGetServices
  | EvGetNewServices
  | EvServicesCreate (services : list Service)
  | EvAddRoutes (services : list Service)
  | EvGetRemovedServices
  | EvServicesRemove (names : list string)
  | EvRemoveRoutes (names : list string)
  | EvRecordError (what : string)
  | EvRecordService (n : nat)
  | EvSleep (seconds : Z).

Section ReconciliationLoop.

Context `{P : Platform} `{H : Machine} `{C : Collaborators}.

Record Proc := mkProc {
  sys : Sys;
  ext : Ext;
  trace : list Event
}.

Definition emit (e : Event) (pr : Proc) : Proc :=
  {| sys := sys pr; ext := ext pr; trace := trace pr ++ [e] |}.

Definition setExt (pr : Proc) (x : Ext) : Proc :=
  {| sys := sys pr; ext := x; trace := trace pr |}.

Definition setSys (pr : Proc) (s : Sys) : Proc :=
  {| sys := s; ext := ext pr; trace := trace pr |}.

(** [if err != nil { metrics.RecordError(what) }] *)
Definition recordErrorIf (err : option error) (what : string) (pr : Proc)
  : Proc :=
  match err with
  | Some _ => emit (EvRecordError what) pr
  | None => pr
  end.

(** The body of the [for] loop. *)
Definition iteration (pr : Proc) : Outcome unit * Proc :=
  let '((allServices, err), x) := GetServices (ext pr) in
  let pr := setExt (emit EvGetServices pr) x in
  let pr := recordErrorIf err "GetServices" pr in
  let '((newServices, err), x) := GetNewServices allServices (ext pr) in
  let pr := setExt (emit EvGetNewServices pr) x in
  let pr := recordErrorIf err "GetNewServices" pr in
  let '(err, x) := ServicesCreate newServices Retry RetryInterval (ext pr) in
  let pr := setExt (emit (EvServicesCreate newServices) pr) x in
  let pr := recordErrorIf err "ServicesCreate" pr in
  let pr := emit (EvAddRoutes newServices) pr in
  match AddRoutes newServices (sys pr) with
  | (Panicked p, s) => (Panicked p, setSys pr s)
  | (Returned _, s) =>
      let pr := setSys pr s in
      let '(removedServices, x) := GetRemovedServices allServices (ext pr) in
      let pr := setExt (emit EvGetRemovedServices pr) x in
      let '(err, x) :=
        ServicesRemove removedServices Retry RetryInterval (ext pr) in
      let pr := setExt (emit (EvServicesRemove removedServices) pr) x in
      let pr := emit (EvRecordService (CachedServices (ext pr))) pr in
      let pr := recordErrorIf err "ServicesRemove" pr in
      let pr := emit (EvRemoveRoutes removedServices) pr in
      match RemoveRoutes removedServices (sys pr) with
      | (Panicked p, s) => (Panicked p, setSys pr s)
      | (Returned _, s) =>
          (Returned tt, emit (EvSleep Interval) (setSys pr s))
      end
  end.

(** The tags handed to [metrics.RecordError] so far. *)
Definition recordedErrors (pr : Proc) : list string :=
  omap (λ e, match e with EvRecordError what => Some what | _ => None end)
       (trace pr).

(** The tag [recordErrorIf] hands over for [err], if any. *)
Definition recorded (err : option error) (what : string) : list string :=
  match err with
  | Some _ => [what]
  | None => []
  end.

Definition isSleep (e : Event) : bool :=
  match e with EvSleep _ => true | _ => false end.

(** How many times the loop has slept so far. *)
Definition sleeps (pr : Proc) : nat := length (List.filter isSleep (trace pr)).

(** The [for] loop never ends by itself; [loop n] is its first [n]
    turns. *)
Fixpoint loop (n : nat) (pr : Proc) : Outcome unit * Proc :=
  match n with
  | O => (Returned tt, pr)
  | S n' =>
      match iteration pr with
      | (Returned _, pr') => loop n' pr'
      | (Panicked p, pr') => (Panicked p, pr')
      end
  end.

(** [main] up to [n] turns of its loop: construction, then the guard on
    [n.CreateServiceAddr], then the loop.  [peer0] and [ext0] are the
    network and the collaborators as the process finds them:
    [NewServiceFromEnv], [NewNotificationFromEnv] and [getArgs] have
    produced [C], and the inbound listener started with
    [go serve.Run()] acts on [Ext] only and is part of what the
    collaborators do. *)
Definition main (n : nat) (peer0 : Peer) (ext0 : Ext)
  : Outcome unit * option Proc :=
  match NewBigIpFromEnv with
  | (Panicked p, _) => (Panicked p, None)
  | (Returned b, _) =>
      let pr := {| sys := {| bigip := b; peer := peer0; wire := [] |};
                   ext := ext0; trace := [] |} in
      if (0 <? String.length CreateServiceAddr)%nat
      then match loop n pr with (o, pr') => (o, Some pr') end
      else (Returned tt, Some pr)
  end.

End ReconciliationLoop.

(** ** Fixtures: a scripted peer and a small cluster *)

Module Fixture.

Definition dq : string := String (ascii_of_N 34) EmptyString.

Definition quoted (s : string) : string := dq +:+ s +:+ dq.

(** An object member, left out when the value is empty ([omitempty]). *)
Definition member (k v : string) : list string :=
  if (String.length v =? 0)%nat then [] else [quoted k +:+ ":" +:+ quoted v].

Definition object (members : list string) : string :=
  "{" +:+ String.concat "," members +:+ "}".

Definition encodeRecord (r : Record_) : string :=
  object (member "name" (Name r) ++ member "data" (Data r)).

(** The document [json.Marshal] writes for a data group whose strings
    need no escaping. *)
Definition encode (dg : DataGroup) : string :=
  object (match Records dg with
          | [] => []
          | rs => [quoted "records" +:+ ":[" +:+
                   String.concat "," (encodeRecord <$> rs) +:+ "]"]
          end).

(** The scripted peer only ever serves the empty document; any other
    body stands for one that does not decode. *)
Definition decode (body : string) : option DataGroup :=
  if String.eqb body "{}" then Some {| Records := [] |} else None.

(** Every label of the runs below is made of ASCII bytes, on which
    [MapToLower] is not consulted. *)
Definition noTables : strings.Unicode := {| strings.MapToLower := λ s, s |}.

(** The peer answers the requests with the entries of a script, in
    order, and refuses the connection once the script is used up. *)
Definition scripted : Platform := {|
  Peer := list (string + Response);
  clientDo := λ _ script,
    match script with
    | [] => (inl "connection refused", [])
    | answer :: rest => (answer, rest)
    end;
  urlParses := λ url,
    forallb (λ c, (32 <? N_of_ascii c)%N) (String.list_ascii_of_string url);
  jsonUnmarshal := decode;
  jsonMarshal := λ dg, Some (encode dg);
  unicode := noTables
|}.

Definition answer (status : Z) (body : string) : string + Response :=
  inr {| StatusCode := status; Body := body |}.

Definition bigIp0 : BigIp := {|
  Url := "https://bigip.example" +:+ DG_PATH +:+ "routes";
  Key := "test-key-value";
  Services := ∅;
  Pattern := "test-pattern"
|}.

Definition boot (script : list (string + Response)) : @Sys scripted :=
  @mkSys scripted bigIp0 script [].

Definition service (name : string) (labels : list (string * string))
  : Service :=
  {| Spec := {| SpecName := name; Labels := list_to_map labels |} |}.

Definition routed (name label : string) : Service :=
  service name [(SERVICE_PATH_LABEL, label)].

(** A machine with the key file and a configuration server in place. *)
Definition machine (env : list (string * string)) : Machine := {|
  Environ := list_to_map env;
  ReadFile := λ path,
    if String.eqb path BIGIP_KEY_FILE
    then inr (" test-key-value" +:+ String (ascii_of_N 10) EmptyString)
    else if String.eqb path "/tmp/secrets/bigip-test-key" then inr "other-key"
    else inl (ErrLib "no such file or directory");
  httpGet := λ url,
    if String.eqb url "http://config.example/bigip"
    then inr {| StatusCode := 200; Body := "good" |}
    else if String.eqb url "http://config.example/broken"
    then inr {| StatusCode := 200; Body := "bad" |}
    else if String.eqb url "http://config.example/missing"
    then inr {| StatusCode := 404; Body := "" |}
    else inl (ErrLib "no such host");
  jsonUnmarshalConfig := λ body,
    if String.eqb body "good"
    then inr {| Host := "https://bigip.example"; DataGroupName := "routes";
                PoolPattern := "test-pattern" |}
    else inl (ErrLib "invalid character")
|}.

(** A cluster whose first snapshot holds one service, [web], routed
    under [/web]; the proxy takes every notification. *)
Definition cluster (addr : string) : Collaborators := {|
  Ext := nat;
  CreateServiceAddr := addr;
  Retry := 1;
  RetryInterval := 0;
  Interval := 5;
  GetServices := λ polls, (([routed "web" "/web"], None), S polls);
  GetNewServices := λ all polls,
    ((if (polls =? 1)%nat then all else [], None), polls);
  ServicesCreate := λ _ _ _ polls, (None, polls);
  GetRemovedServices := λ _ polls, ([], polls);
  ServicesRemove := λ _ _ _ polls, (None, polls);
  CachedServices := λ _, 1%nat
|}.

(** A cluster where the new service, [db], bears no path label and the
    name reported as removed, [gone], was never routed. *)
Definition backstage : Collaborators := {|
  Ext := nat;
  CreateServiceAddr := "http://proxy:8080/v1/docker-flow-proxy/reconfigure";
  Retry := 1;
  RetryInterval := 0;
  Interval := 5;
  GetServices := λ polls,
    (([service "db" [("com.df.notify", "true")]], None), S polls);
  GetNewServices := λ all polls, ((all, None), polls);
  ServicesCreate := λ _ _ _ polls, (None, polls);
  GetRemovedServices := λ _ polls, (["gone"], polls);
  ServicesRemove := λ _ _ _ polls, (None, polls);
  CachedServices := λ _, 1%nat
|}.

End Fixture.

(** ** A second fixture: a route store that keeps what it is sent *)

Module Store.

Fixpoint stripPrefix (prefix s : string) : option string :=
  match prefix, s with
  | EmptyString, _ => Some s
  | String a prefix', String b s' =>
      if Ascii.eqb a b then stripPrefix prefix' s' else None
  | String _ _, EmptyString => None
  end.

(** The bytes up to the next quote, and what follows that quote. *)
Fixpoint untilQuote (s : string) : option (string * string) :=
  match s with
  | EmptyString => None
  | String c rest =>
      if Ascii.eqb c (ascii_of_N 34) then Some (EmptyString, rest)
      else match untilQuote rest with
           | Some (value, rest') => Some (String c value, rest')
           | None => None
           end
  end.

Definition parseMember (key s : string) : option (string * string) :=
  match stripPrefix (Fixture.quoted key +:+ ":" +:+ Fixture.dq) s with
  | Some rest => untilQuote rest
  | None => None
  end.

Definition parseRecord (s : string) : option (Record_ * string) :=
  match stripPrefix "{" s with
  | None => None
  | Some s1 =>
      let '(name, s2) := default (EmptyString, s1) (parseMember "name" s1) in
      let s3 := default s2 (stripPrefix "," s2) in
      let '(data, s4) := default (EmptyString, s3) (parseMember "data" s3) in
      match stripPrefix "}" s4 with
      | Some rest => Some ({| Name := name; Data := data |}, rest)
      | None => None
      end
  end.

Fixpoint parseRecords (fuel : nat) (s : string)
  : option (list Record_ * string) :=
  match fuel with
  | O => None
  | S fuel' =>
      match parseRecord s with
      | None => None
      | Some (r, s1) =>
          match stripPrefix "," s1 with
          | None => Some ([r], s1)
          | Some s2 =>
              match parseRecords fuel' s2 with
              | Some (rs, rest) => Some (r :: rs, rest)
              | None => None
              end
          end
      end
  end.

(** Reads back the documents [Fixture.encode] writes; anything else
    stands for a body that does not decode. *)
Definition decode (body : string) : option DataGroup :=
  if String.eqb body "{}" then Some {| Records := [] |}
  else
    match stripPrefix ("{" +:+ Fixture.quoted "records" +:+ ":[") body with
    | None => None
    | Some s =>
        match parseRecords (String.length s) s with
        | Some (rs, rest) =>
            if String.eqb rest "]}" then Some {| Records := rs |} else None
        | None => None
        end
    end.

(** The peer is the stored document: a GET is answered 200 with it, a
    PUT replaces it and is answered 200. *)
Definition keeping : Platform := {|
  Peer := string;
  clientDo := λ req document,
    match ReqMethod req with
    | GET => (inr {| StatusCode := 200; Body := document |}, document)
    | PUT => (inr {| StatusCode := 200; Body := EmptyString |}, ReqBody req)
    end;
  urlParses := λ url,
    forallb (λ c, (32 <? N_of_ascii c)%N) (String.list_ascii_of_string url);
  jsonUnmarshal := decode;
  jsonMarshal := λ dg, Some (Fixture.encode dg);
  unicode := Fixture.noTables
|}.

Definition boot (document : string) : @Sys keeping :=
  @mkSys keeping Fixture.bigIp0 document [].

(** A receiver that has [web] cached under [/web], before a store that
    holds [/web] and [/api]. *)
Definition serving : @Sys keeping :=
  @mkSys keeping
    (setServices Fixture.bigIp0 {["web" := ["/web"]]})
    (Fixture.encode
       {| Records := [ {| Name := "/web"; Data := "p" |};
                       {| Name := "/api"; Data := "p" |} ] |})
    [].

End Store.

(** * Properties

    ** The library functions on examples *)

Example ToLower_moves_letters_only `{U : strings.Unicode} :
  strings.ToLower "/Orders,/Billing@AZ[`az{" = "/orders,/billing@az[`az{".
Proof. reflexivity. Qed.

(** [/ÉCOLE] in UTF-8: with a byte above 127 the result is that of the
    case tables, whatever they give. *)
Example ToLower_beyond_ascii `{U : strings.Unicode} :
  strings.ToLower ("/" +:+ strings.bytes [195; 137] +:+ "COLE")
  = strings.MapToLower ("/" +:+ strings.bytes [195; 137] +:+ "COLE").
Proof. reflexivity. Qed.

Example Split_keeps_empty_segments :
  strings.Split ",a,,b" "," = [""; "a"; ""; "b"]
  ∧ strings.Split "" "," = [""]
  ∧ strings.Split "/a" "," = ["/a"].
Proof. repeat split; reflexivity. Qed.

Example TrimSpace_keeps_inner_space :
  strings.TrimSpace (" a b " +:+ String (ascii_of_N 10) EmptyString) = "a b".
Proof. reflexivity. Qed.

(** A no-break space (U+00A0) and a tab before the key, a next-line
    (U+0085) and a line feed after it; and bytes that only look like the
    beginning of a white space rune stay. *)
Example TrimSpace_takes_off_unicode_space :
  strings.TrimSpace
    (strings.bytes [194; 160; 9] +:+ "key" +:+ strings.bytes [194; 133; 10])
  = "key"
  ∧ strings.TrimSpace (strings.bytes [226; 128] +:+ "key" +:+ strings.bytes [194])
    = strings.bytes [226; 128] +:+ "key" +:+ strings.bytes [194].
Proof. split; vm_compute; reflexivity. Qed.

(** ** Remove mode: [removeRecords] and [containsRecord] *)

Section RemoveRecords.

Lemma containsRecord_spec target candidate :
  containsRecord target candidate = true ↔
  Name candidate ∈ (Name <$> target).
Proof.
  induction target as [|t rest IH]; simpl.
  - split; [discriminate | intros H; inversion H].
  - destruct (decide (Name t = Name candidate)) as [E|NE].
    + split; [intros _; rewrite E; left | done].
    + rewrite IH. split.
      * intros H. by right.
      * intros H. inversion H; subst; [congruence | done].
Qed.

Lemma containsRecord_false target candidate :
  containsRecord target candidate = false ↔
  Name candidate ∉ (Name <$> target).
Proof.
  rewrite <- containsRecord_spec.
  destruct (containsRecord target candidate); naive_solver.
Qed.

Lemma drop_next (arr todo : list Record_) (n : nat) (r : Record_) :
  drop n arr = r :: todo → drop (S n) arr = todo.
Proof.
  intros H.
  assert (Hr : arr !! n = Some r).
  { rewrite <- (Nat.add_0_r n), <- lookup_drop, H. done. }
  rewrite (drop_S arr r n Hr) in H. congruence.
Qed.

(** The loop invariant: with [done_ ++ todo] the original slice, the
    array holds the kept records of [done_] in its first [k] places and
    [todo] untouched from place [length done_] on. *)
Lemma removeRecords_loop_spec remove todo :
  ∀ (done_ : list Record_) (k : nat) (arr : list Record_),
    length arr = length done_ + length todo →
    take k arr = retained done_ remove →
    drop (length done_) arr = todo →
    (k ≤ length done_)%nat →
    let '(k', arr') :=
      removeRecords_loop remove (length todo) (length done_) k arr in
    take k' arr' = retained (done_ ++ todo) remove.
Proof.
  induction todo as [|r todo IH]; intros done_ k arr Hlen Htake Hdrop Hk.
  - simpl. by rewrite app_nil_r.
  - simpl.
    assert (Hr : arr !! length done_ = Some r).
    { rewrite <- (Nat.add_0_r (length done_)), <- lookup_drop, Hdrop. done. }
    rewrite Hr.
    assert (Hsplit : done_ ++ r :: todo = (done_ ++ [r]) ++ todo)
      by by rewrite <- app_assoc.
    assert (HS : S (length done_) = length (done_ ++ [r]))
      by (rewrite length_app; simpl; lia).
    destruct (containsRecord remove r) eqn:Hc; simpl.
    + rewrite Hsplit, HS. apply IH.
      * rewrite length_app; simpl in *; lia.
      * unfold retained in *. rewrite filter_app, Htake.
        rewrite filter_cons_False, filter_nil, app_nil_r; [done|].
        apply containsRecord_spec in Hc. naive_solver.
      * rewrite <- HS. eapply drop_next; eauto.
      * lia.
    + rewrite Hsplit, HS. apply IH.
      * rewrite length_insert, length_app; simpl in *; lia.
      * unfold retained in *. rewrite filter_app.
        rewrite filter_cons_True, filter_nil
          by (by apply containsRecord_false).
        rewrite <- Htake.
        assert (Hklen : k < length arr) by (simpl in Hlen; lia).
        rewrite (take_S_r (<[k:=r]> arr) k r)
          by (by apply list_lookup_insert_eq).
        by rewrite take_insert_ge by lia.
      * rewrite <- HS. rewrite drop_insert_lt by lia.
        eapply drop_next; eauto.
      * lia.
Qed.

Lemma removeRecords_retained from remove :
  removeRecords from remove = retained from remove.
Proof.
  unfold removeRecords.
  pose proof (removeRecords_loop_spec remove from [] 0%nat from) as H.
  simpl in H.
  destruct (removeRecords_loop remove (length from) 0 0 from) as [k arr].
  apply H; done.
Qed.


(** C5. The remove step yields exactly the fetched records whose name
    is the name of no candidate record, in their original order; the
    data of the candidates plays no role, and every record that shares a
    removed name is gone. *)
Theorem removeRecords_by_name (from remove : list Record_) :
  removeRecords from remove = retained from remove
  ∧ removeRecords from remove `sublist_of` from
  ∧ (∀ r, r ∈ removeRecords from remove ↔
          r ∈ from ∧ ∀ t, t ∈ remove → Name t ≠ Name r)
  ∧ (∀ remove', Name <$> remove' = Name <$> remove →
          removeRecords from remove' = removeRecords from remove).
Proof.
  rewrite removeRecords_retained. unfold retained.
  split; [done|]. split; [apply sublist_filter|]. split.
  - intros r. rewrite list_elem_of_filter, list_elem_of_fmap.
    split; intros [Hn Hin]; split; try done.
    + intros t Ht E. apply Hn. eauto.
    + intros (t & E & Ht). by apply (Hin t).
  - intros remove' E. rewrite removeRecords_retained. unfold retained.
    by rewrite E.
Qed.

End RemoveRecords.

Example removeRecords_drops_every_namesake :
  removeRecords
    [ {| Name := "/a"; Data := "1" |}; {| Name := "/b"; Data := "2" |};
      {| Name := "/a"; Data := "3" |}; {| Name := "/c"; Data := "4" |} ]
    [ {| Name := "/a"; Data := "other" |} ]
  = [ {| Name := "/b"; Data := "2" |}; {| Name := "/c"; Data := "4" |} ].
Proof. reflexivity. Qed.

(** ** The Route Update Protocol *)

Section Protocol.

Context `{P : Platform}.

Implicit Types (sys : Sys) (paths : list string) (remove : bool).

Ltac run_protocol :=
  unfold updateDataGroup, bind, getBigIp, liftO, Do, ret, putServices in *;
  simpl in *.

Lemma newRequest_returns (b : BigIp) (m : Method) (body : string) :
  urlParses (Url b) = true →
  newRequest b m body =
    Returned {| ReqMethod := m; ReqUrl := Url b;
                ReqHeader := [("Content-Type", "application/json");
                              (BIGIP_HEADER, Key b)];
                ReqBody := body |}.
Proof. intros Hu. unfold newRequest, NewRequest. by rewrite Hu. Qed.

Lemma newRequest_parses (b : BigIp) (m : Method) (body : string)
    (req : Request) :
  newRequest b m body = Returned req → urlParses (Url b) = true.
Proof.
  unfold newRequest, NewRequest.
  destruct (urlParses (Url b)); [done | discriminate].
Qed.

Lemma appendRecords_app (into records : list Record_) :
  appendRecords into records = into ++ records.
Proof.
  unfold appendRecords. revert into.
  induction records as [|r rs IH]; intros into; simpl.
  - by rewrite app_nil_r.
  - rewrite IH, <- app_assoc. done.
Qed.

(** The protocol reads the receiver and never writes it. *)
Lemma updateDataGroup_bigip paths remove sys :
  bigip (snd (updateDataGroup paths remove sys)) = bigip sys.
Proof.
  run_protocol.
  repeat (case_match; simpl in *; simplify_eq); done.
Qed.

(** With a URL that parses it always returns. *)
Lemma updateDataGroup_returns paths remove sys :
  urlParses (Url (bigip sys)) = true →
  ∃ err, fst (updateDataGroup paths remove sys) = Returned err.
Proof.
  intros Hu. run_protocol.
  rewrite !newRequest_returns by done. simpl.
  repeat (case_match; simpl in *; simplify_eq); eauto;
    rewrite newRequest_returns in * by done; simplify_eq.
Qed.

Lemma protocol_fails_returns paths remove sys e :
  ProtocolFails paths remove sys e →
  ∃ sys', updateDataGroup paths remove sys = (Returned (Some e), sys')
          ∧ bigip sys' = bigip sys.
Proof.
  intros HF.
  pose proof (updateDataGroup_bigip paths remove sys) as Hb.
  destruct (updateDataGroup paths remove sys) as [o sys'] eqn:Hrun.
  exists sys'. split; [|done]. f_equal.
  assert (o = fst (updateDataGroup paths remove sys)) as -> by by rewrite Hrun.
  clear Hrun Hb.
  inversion HF; subst; run_protocol;
    repeat match goal with
           | H : newRequest _ _ _ = _ |- _ => rewrite H; simpl
           | H : clientDo _ _ = _ |- _ => rewrite H; simpl
           | H : jsonUnmarshal _ = _ |- _ => rewrite H; simpl
           | H : jsonMarshal _ = _ |- _ => rewrite H; simpl
           | |- context [decide ?X] => destruct (decide X); simpl; try done
           end; done.
Qed.

Lemma protocol_succeeds_returns paths remove sys :
  ProtocolSucceeds paths remove sys →
  fst (updateDataGroup paths remove sys) = Returned None.
Proof.
  intros HS. inversion HS; subst; run_protocol.
  repeat match goal with
         | H : newRequest _ _ _ = _ |- _ => rewrite H; simpl
         | H : clientDo _ _ = _ |- _ => rewrite H; simpl
         | H : jsonUnmarshal _ = _ |- _ => rewrite H; simpl
         | H : jsonMarshal _ = _ |- _ => rewrite H; simpl
         | |- context [decide ?X] => destruct (decide X); simpl; try done
         end; done.
Qed.

Create HintDb protocol.

#[local] Hint Constructors ProtocolFails ProtocolSucceeds : protocol.

(** Every way out of [updateDataGroup] is one of the seven. *)
Lemma protocol_cases paths remove sys :
  urlParses (Url (bigip sys)) = true →
  ProtocolSucceeds paths remove sys ∨ ∃ e, ProtocolFails paths remove sys e.
Proof.
  intros Hu.
  pose proof (newRequest_returns (bigip sys) GET "" Hu) as Hget.
  match type of Hget with _ = Returned ?get =>
    destruct (clientDo get (peer sys)) as [[cause|resp] p1] eqn:Hdo1
  end; [eauto with protocol|].
  destruct (decide (StatusCode resp = StatusOK)) as [H200|Hn200];
    [|eauto with protocol].
  destruct (jsonUnmarshal (Body resp)) as [dg|] eqn:Hdec;
    [|eauto with protocol].
  destruct (jsonMarshal
              (applyRecords remove dg (getRecords paths (Pattern (bigip sys)))))
    as [payload|] eqn:Henc;
    [|eauto with protocol].
  pose proof (newRequest_returns (bigip sys) PUT payload Hu) as Hput.
  match type of Hput with _ = Returned ?put =>
    destruct (clientDo put p1) as [[cause|resp2] p2] eqn:Hdo2
  end; [eauto with protocol|].
  destruct (decide (StatusCode resp2 = StatusOK)); eauto 6 with protocol.
Qed.

(** A success leaves exactly the GET and the PUT on the wire. *)
Lemma updateDataGroup_success paths remove sys sys1 :
  updateDataGroup paths remove sys = (Returned None, sys1) →
  ∃ get resp p1 dg payload put resp2,
    newRequest (bigip sys) GET "" = Returned get
    ∧ clientDo get (peer sys) = (inr resp, p1)
    ∧ StatusCode resp = StatusOK
    ∧ jsonUnmarshal (Body resp) = Some dg
    ∧ jsonMarshal
        (applyRecords remove dg (getRecords paths (Pattern (bigip sys))))
      = Some payload
    ∧ newRequest (bigip sys) PUT payload = Returned put
    ∧ clientDo put p1 = (inr resp2, peer sys1)
    ∧ StatusCode resp2 = StatusOK
    ∧ wire sys1 = wire sys ++ [get; put]
    ∧ bigip sys1 = bigip sys.
Proof.
  run_protocol.
  destruct (newRequest (bigip sys) GET "") as [get|] eqn:Hget; [|discriminate].
  destruct (clientDo get (peer sys)) as [[cause|resp] p1] eqn:Hdo1;
    simpl; [discriminate|].
  destruct (decide (StatusCode resp = StatusOK)) as [H200|]; [|discriminate].
  destruct (jsonUnmarshal (Body resp)) as [dg|] eqn:Hdec; [|discriminate].
  destruct (jsonMarshal _) as [payload|] eqn:Henc; [|discriminate].
  simpl.
  destruct (newRequest (bigip sys) PUT payload) as [put|] eqn:Hput;
    [|discriminate].
  destruct (clientDo put p1) as [[cause|resp2] p2] eqn:Hdo2;
    simpl; [discriminate|].
  destruct (decide (StatusCode resp2 ≠ StatusOK)) as [|H200']; [discriminate|].
  intros ?; simplify_eq. simpl.
  exists get, resp, p1, dg, payload, put, resp2.
  rewrite <- app_assoc. simpl.
  repeat split; try done. by apply dec_stable.
Qed.


(** C3, as the code has it.  A route-store update is reported as failed
    exactly when the GET or the PUT fails in transport, or is answered a
    status other than 200, or the body fetched with status 200 does not
    decode (or the new collection does not encode); it succeeds exactly
    when both exchanges are answered 200 and the fetched body decodes.
    A 2xx status other than 200 is a failure, and the body of the PUT's
    answer is never decoded. *)
Theorem update_fails_iff paths remove sys :
  urlParses (Url (bigip sys)) = true →
  (∀ e, fst (updateDataGroup paths remove sys) = Returned (Some e) ↔
        ProtocolFails paths remove sys e)
  ∧ (fst (updateDataGroup paths remove sys) = Returned None ↔
     ProtocolSucceeds paths remove sys).
Proof.
  intros Hu. split; [intros e|]; split.
  - intros Hrun. destruct (protocol_cases paths remove sys Hu) as [HS|[e' HF]].
    + apply protocol_succeeds_returns in HS. congruence.
    + destruct (protocol_fails_returns _ _ _ _ HF) as (sys' & Hrun' & _).
      rewrite Hrun' in Hrun. simpl in Hrun. by simplify_eq.
  - intros HF. destruct (protocol_fails_returns _ _ _ _ HF) as (sys' & -> & _).
    done.
  - intros Hrun. destruct (protocol_cases paths remove sys Hu) as [HS|[e' HF]].
    + done.
    + destruct (protocol_fails_returns _ _ _ _ HF) as (sys' & Hrun' & _).
      rewrite Hrun' in Hrun. discriminate.
  - apply protocol_succeeds_returns.
Qed.

End Protocol.

(** A run of [update_fails_iff]: the store answers 200 twice. *)
Lemma update_fails_iff_witness :
  urlParses (Platform := Fixture.scripted) (Url Fixture.bigIp0) = true
  ∧ (fst (updateDataGroup ["/a"] false
            (Fixture.boot [Fixture.answer 200 "{}"; Fixture.answer 200 ""]))
       = Returned None ↔
     ProtocolSucceeds ["/a"] false
       (Fixture.boot [Fixture.answer 200 "{}"; Fixture.answer 200 ""])).
Proof.
  split; [reflexivity|].
  apply (update_fails_iff (P := Fixture.scripted) ["/a"] false
           (Fixture.boot [Fixture.answer 200 "{}"; Fixture.answer 200 ""])).
  reflexivity.
Defined.

(** C3 as stated fails.  The store answers the GET with 204, a 2xx
    status, and a body that decodes: the update is reported as failed.
    Likewise when the GET is answered 200 and the PUT 201. *)
Lemma status_2xx_other_than_200_fails :
  (200 ≤ 204 < 300)%Z
  ∧ (200 ≤ 201 < 300)%Z
  ∧ jsonUnmarshal (Platform := Fixture.scripted) "{}" = Some {| Records := [] |}
  ∧ fst (updateDataGroup ["/a"] false (Fixture.boot [Fixture.answer 204 "{}"]))
    = Returned (Some (ErrStatus (Url Fixture.bigIp0) 204 "{}"))
  ∧ fst (addRoute (Fixture.routed "web" "/a")
           (Fixture.boot [Fixture.answer 204 "{}"]))
    = Returned (Failed (ErrStatus (Url Fixture.bigIp0) 204 "{}"))
  ∧ fst (updateDataGroup ["/a"] false
           (Fixture.boot [Fixture.answer 200 "{}"; Fixture.answer 201 ""]))
    = Returned (Some (ErrStatus (Url Fixture.bigIp0) 201 "")).
Proof. repeat split; try lia; vm_compute; reflexivity. Qed.

(** ** Turns and batches *)

Section Batches.

Context `{P : Platform}.

Implicit Types (sys : Sys) (it : Item) (log : list (Item * ItemResult)).

(** A turn is: skip, or run the protocol and commit on success. *)
Lemma step_unfold it sys :
  step it sys =
  match itemPaths it (bigip sys) with
  | None => (Returned Skipped, sys)
  | Some paths =>
      match updateDataGroup paths (isRemove it) sys with
      | (Returned (Some e), sys1) => (Returned (Failed e), sys1)
      | (Returned None, sys1) =>
          (Returned Applied,
           {| bigip := setServices (bigip sys1)
                         (commit it paths (Services (bigip sys1)));
              peer := peer sys1; wire := wire sys1 |})
      | (Panicked p, sys1) => (Panicked p, sys1)
      end
  end.
Proof.
  destruct it as [s|name]; simpl.
  - unfold addRoute.
    destruct (Labels (Spec s) !! SERVICE_PATH_LABEL) as [label|]; simpl; [|done].
    unfold bind.
    destruct (updateDataGroup _ false sys) as [[[e|]|p] sys1]; done.
  - unfold removeRoute, bind, getBigIp.
    destruct (Services (bigip sys) !! name) as [paths|]; simpl; [|done].
    destruct (updateDataGroup _ true sys) as [[[e|]|p] sys1]; done.
Qed.

Lemma step_effect it sys o sys1 :
  step it sys = (o, sys1) →
  Url (bigip sys1) = Url (bigip sys)
  ∧ match o with
    | Returned Applied =>
        ∃ paths, itemPaths it (bigip sys) = Some paths
                 ∧ Services (bigip sys1) = commit it paths (Services (bigip sys))
    | _ => bigip sys1 = bigip sys
    end.
Proof.
  rewrite step_unfold.
  destruct (itemPaths it (bigip sys)) as [paths|] eqn:Hp;
    [|intros; by simplify_eq].
  pose proof (updateDataGroup_bigip paths (isRemove it) sys) as Hb.
  destruct (updateDataGroup paths (isRemove it) sys) as [[[e|]|p] sys0];
    simpl in Hb; intros; simplify_eq; simpl; rewrite ?Hb; eauto.
Qed.

Lemma step_returns it sys :
  urlParses (Url (bigip sys)) = true →
  ∃ r sys1, step it sys = (Returned r, sys1).
Proof.
  intros Hu. rewrite step_unfold.
  destruct (itemPaths it (bigip sys)) as [paths|]; [|eauto].
  destruct (updateDataGroup_returns paths (isRemove it) sys Hu) as [err Herr].
  destruct (updateDataGroup paths (isRemove it) sys) as [o sys0].
  simpl in Herr. subst o. destruct err; eauto.
Qed.

(** *** The list of turns *)

(** The log follows the list, item by item, up to where it ends. *)
Lemma steps_items its sys :
  fst <$> fst (steps its sys) = take (length (fst (steps its sys))) its.
Proof.
  revert sys. induction its as [|it rest IH]; intros sys; simpl; [done|].
  destruct (step it sys) as [[r|p] sys1]; simpl; [|done].
  specialize (IH sys1). destruct (steps rest sys1). simpl in *. by f_equal.
Qed.

Lemma steps_app xs ys sys :
  steps (xs ++ ys) sys =
  let '(l1, s1) := steps xs sys in
  if decide (length l1 = length xs)
  then let '(l2, s2) := steps ys s1 in (l1 ++ l2, s2)
  else (l1, s1).
Proof.
  revert sys. induction xs as [|x xs IH]; intros sys; simpl.
  - by destruct (steps ys sys).
  - destruct (step x sys) as [[r|p] sys1]; simpl; [|done].
    rewrite IH. destruct (steps xs sys1) as [l1 s1]. simpl.
    destruct (decide (length l1 = length xs));
      destruct (decide (S (length l1) = S (length xs))); try lia; [|done].
    by destruct (steps ys s1).
Qed.

(** With a URL that parses, every item takes its turn. *)
Lemma steps_complete its sys :
  urlParses (Url (bigip sys)) = true →
  fst <$> fst (steps its sys) = its.
Proof.
  revert sys. induction its as [|it rest IH]; intros sys Hu; simpl; [done|].
  destruct (step_returns it sys Hu) as (r & sys1 & Hstep). rewrite Hstep.
  apply step_effect in Hstep as [HUrl _].
  specialize (IH sys1). rewrite HUrl in IH. specialize (IH Hu).
  destruct (steps rest sys1). simpl in *. by f_equal.
Qed.


(** *** The loops are the list of turns *)

Lemma steps_cons it rest sys :
  steps (it :: rest) sys =
  match step it sys with
  | (Returned r, sys1) =>
      let '(log, sys2) := steps rest sys1 in ((it, r) :: log, sys2)
  | (Panicked _, sys1) => ([], sys1)
  end.
Proof. done. Qed.

Lemma AddRoutes_loop_steps services errs sys :
  snd (AddRoutes_loop services errs sys)
    = snd (steps (AddItem <$> services) sys)
  ∧ (length (fst (steps (AddItem <$> services) sys)) = length services →
     fst (AddRoutes_loop services errs sys)
       = Returned (errs ++ failures (fst (steps (AddItem <$> services) sys))))
  ∧ (length (fst (steps (AddItem <$> services) sys)) ≠ length services →
     ∃ p, fst (AddRoutes_loop services errs sys) = Panicked p).
Proof.
  revert errs sys. induction services as [|s rest IH]; intros errs sys.
  - simpl. rewrite app_nil_r. repeat split; done.
  - rewrite fmap_cons, steps_cons.
    change (step (AddItem s) sys) with (addRoute s sys).
    change (AddRoutes_loop (s :: rest) errs sys)
      with (bind (addRoute s) (λ r, AddRoutes_loop rest (collect errs r)) sys).
    unfold bind. destruct (addRoute s sys) as [[r|p] sys1]; simpl.
    + destruct (IH (collect errs r) sys1) as (IH1 & IH2 & IH3).
      destruct (steps (AddItem <$> rest) sys1) as [log sys2]. simpl in *.
      split; [done|]. split.
      * intros Hlen. rewrite IH2 by lia.
        destruct r; simpl; by rewrite <- ?app_assoc.
      * intros Hlen. apply IH3. lia.
    + repeat split; [done|]. eauto.
Qed.

Lemma RemoveRoutes_loop_steps names errs sys :
  snd (RemoveRoutes_loop names errs sys)
    = snd (steps (RemoveItem <$> names) sys)
  ∧ (length (fst (steps (RemoveItem <$> names) sys)) = length names →
     fst (RemoveRoutes_loop names errs sys)
       = Returned (errs ++ failures (fst (steps (RemoveItem <$> names) sys))))
  ∧ (length (fst (steps (RemoveItem <$> names) sys)) ≠ length names →
     ∃ p, fst (RemoveRoutes_loop names errs sys) = Panicked p).
Proof.
  revert errs sys. induction names as [|s rest IH]; intros errs sys.
  - simpl. rewrite app_nil_r. repeat split; done.
  - rewrite fmap_cons, steps_cons.
    change (step (RemoveItem s) sys) with (removeRoute s sys).
    change (RemoveRoutes_loop (s :: rest) errs sys)
      with (bind (removeRoute s)
              (λ r, RemoveRoutes_loop rest (collect errs r)) sys).
    unfold bind. destruct (removeRoute s sys) as [[r|p] sys1]; simpl.
    + destruct (IH (collect errs r) sys1) as (IH1 & IH2 & IH3).
      destruct (steps (RemoveItem <$> rest) sys1) as [log sys2]. simpl in *.
      split; [done|]. split.
      * intros Hlen. rewrite IH2 by lia.
        destruct r; simpl; by rewrite <- ?app_assoc.
      * intros Hlen. apply IH3. lia.
    + repeat split; [done|]. eauto.
Qed.

Lemma runCall_steps c sys :
  snd (runCall c sys) = snd (steps (callItems c) sys)
  ∧ (length (fst (steps (callItems c) sys)) = length (callItems c) →
     fst (runCall c sys) = Returned (verdict c (fst (steps (callItems c) sys))))
  ∧ (length (fst (steps (callItems c) sys)) ≠ length (callItems c) →
     ∃ p, fst (runCall c sys) = Panicked p).
Proof.
  destruct c as [services|names]; simpl; rewrite length_fmap.
  - destruct (AddRoutes_loop_steps services [] sys) as (H1 & H2 & H3).
    unfold AddRoutes, bind, ret, verdict.
    destruct (AddRoutes_loop services [] sys) as [[errs|p] sys1]; simpl in *.
    + split; [destruct (0 <? length errs)%nat; simpl; done|]. split.
      * intros Hlen. specialize (H2 Hlen). simplify_eq.
        destruct (0 <? length _)%nat; simpl; done.
      * intros Hlen. destruct (H3 Hlen) as [p Hp]. discriminate.
    + split; [done|]. split; [|eauto].
      intros Hlen. specialize (H2 Hlen). discriminate.
  - destruct (RemoveRoutes_loop_steps names [] sys) as (H1 & H2 & H3).
    unfold RemoveRoutes, bind, ret, verdict.
    destruct (RemoveRoutes_loop names [] sys) as [[errs|p] sys1]; simpl in *.
    + split; [destruct (0 <? length errs)%nat; simpl; done|]. split.
      * intros Hlen. specialize (H2 Hlen). simplify_eq.
        destruct (0 <? length _)%nat; simpl; done.
      * intros Hlen. destruct (H3 Hlen) as [p Hp]. discriminate.
    + split; [done|]. split; [|eauto].
      intros Hlen. specialize (H2 Hlen). discriminate.
Qed.

Lemma runCalls_steps cs sys :
  snd (runCalls cs sys) = snd (steps (cs ≫= callItems) sys).
Proof.
  revert sys. induction cs as [|c cs IH]; intros sys; [done|].
  rewrite bind_cons, steps_app.
  change (runCalls (c :: cs) sys)
    with (bind (runCall c) (λ _, runCalls cs) sys).
  unfold bind.
  destruct (runCall_steps c sys) as (H1 & H2 & H3).
  destruct (steps (callItems c) sys) as [l1 s1]. cbn [fst snd] in *.
  destruct (decide (length l1 = length (callItems c))) as [Hlen|Hlen].
  - specialize (H2 Hlen).
    destruct (runCall c sys) as [o s1']. cbn [fst snd] in *. subst.
    rewrite IH. by destruct (steps (cs ≫= callItems) s1).
  - destruct (H3 Hlen) as [p Hp].
    destruct (runCall c sys) as [o s1']. cbn [fst snd] in *. by subst.
Qed.

Lemma steps_url its sys :
  Url (bigip (snd (steps its sys))) = Url (bigip sys).
Proof.
  revert sys. induction its as [|it rest IH]; intros sys; [done|].
  rewrite steps_cons.
  destruct (step it sys) as [[r|p] sys1] eqn:Hstep;
    apply step_effect in Hstep as [HUrl _]; [|done].
  specialize (IH sys1). destruct (steps rest sys1). simpl in *. congruence.
Qed.

(** With a URL that parses, a call returns, and leaves the URL alone. *)
Lemma runCall_returns c sys :
  urlParses (Url (bigip sys)) = true →
  ∃ err sys', runCall c sys = (Returned err, sys')
              ∧ Url (bigip sys') = Url (bigip sys).
Proof.
  intros Hu.
  destruct (runCall_steps c sys) as (H1 & H2 & _).
  pose proof (steps_complete (callItems c) sys Hu) as Hall.
  pose proof (steps_url (callItems c) sys) as HUrl.
  destruct (runCall c sys) as [o sys']. simpl in *. subst sys'.
  rewrite H2 in *; [eauto|].
  by rewrite <- Hall at 2; rewrite length_fmap.
Qed.

(** *** The Route Cache along a list of turns *)




Lemma steps_applied_labelled its sys s :
  (AddItem s, Applied) ∈ fst (steps its sys) →
  is_Some (Labels (Spec s) !! SERVICE_PATH_LABEL).
Proof.
  revert sys. induction its as [|it rest IH]; intros sys.
  - simpl. by rewrite elem_of_nil.
  - rewrite steps_cons.
    destruct (step it sys) as [[r|p] sys1] eqn:Hstep;
      [|cbn [fst]; by rewrite elem_of_nil].
    specialize (IH sys1). destruct (steps rest sys1) as [log sys2].
    cbn [fst] in *. rewrite elem_of_cons. intros [E|Hin]; [|by apply IH].
    simplify_eq. apply step_effect in Hstep as [_ (paths & Hpaths & _)].
    simpl in Hpaths. apply fmap_Some in Hpaths as (label & -> & _). eauto.
Qed.

(** Turns that do not complete for [name] leave its entry alone. *)
Lemma steps_untouched its sys name :
  (∀ it, (it, Applied) ∈ fst (steps its sys) → itemName it ≠ name) →
  Services (bigip (snd (steps its sys))) !! name
    = Services (bigip sys) !! name.
Proof.
  revert sys. induction its as [|it rest IH]; intros sys; [done|].
  rewrite steps_cons.
  destruct (step it sys) as [[r|p] sys1] eqn:Hstep;
    apply step_effect in Hstep as [_ Heff].
  - specialize (IH sys1). destruct (steps rest sys1) as [log sys2].
    cbn [fst snd] in *. intros Hno.
    rewrite IH by (intros it' Hin; apply Hno; by right).
    destruct r as [|e|]; try by rewrite Heff.
    destruct Heff as (paths & _ & ->).
    assert (itemName it ≠ name) as Hne by (apply Hno; left).
    destruct it as [s|n]; simpl in *.
    + by rewrite lookup_insert_ne.
    + by rewrite lookup_delete_ne.
  - cbn [fst snd]. intros _. by rewrite Heff.
Qed.

(** *** A URL that [http.NewRequest] refuses *)

Lemma step_unparsable it sys :
  urlParses (Url (bigip sys)) = false →
  step it sys =
  match itemPaths it (bigip sys) with
  | None => (Returned Skipped, sys)
  | Some _ => (Panicked PanicNilDeref, sys)
  end.
Proof.
  intros Hu. rewrite step_unfold.
  destruct (itemPaths it (bigip sys)) as [paths|]; [|done].
  unfold updateDataGroup, bind, getBigIp, liftO, newRequest, NewRequest.
  simpl. by rewrite Hu.
Qed.

Lemma AddRoutes_loop_unparsable (services : list Service)
    (errs : list error) sys :
  urlParses (Url (bigip sys)) = false →
  (∃ s, s ∈ services ∧ is_Some (Labels (Spec s) !! SERVICE_PATH_LABEL)) →
  AddRoutes_loop services errs sys = (Panicked PanicNilDeref, sys).
Proof.
  intros Hu. revert errs.
  induction services as [|s rest IH]; intros errs (s' & Hin & Hlabel).
  - by apply elem_of_nil in Hin.
  - change (AddRoutes_loop (s :: rest) errs sys)
      with (bind (step (AddItem s))
              (λ r, AddRoutes_loop rest (collect errs r)) sys).
    unfold bind. rewrite (step_unparsable _ _ Hu). simpl.
    destruct (Labels (Spec s) !! SERVICE_PATH_LABEL) as [label|] eqn:Hs;
      simpl; [done|].
    apply IH. exists s'. split; [|done].
    apply elem_of_cons in Hin as [->|Hin]; [|done].
    rewrite Hs in Hlabel. by destruct Hlabel.
Qed.

Lemma RemoveRoutes_loop_unparsable (names : list string)
    (errs : list error) sys :
  urlParses (Url (bigip sys)) = false →
  (∃ name, name ∈ names ∧ is_Some (Services (bigip sys) !! name)) →
  RemoveRoutes_loop names errs sys = (Panicked PanicNilDeref, sys).
Proof.
  intros Hu. revert errs.
  induction names as [|n rest IH]; intros errs (n' & Hin & Hcached).
  - by apply elem_of_nil in Hin.
  - change (RemoveRoutes_loop (n :: rest) errs sys)
      with (bind (step (RemoveItem n))
              (λ r, RemoveRoutes_loop rest (collect errs r)) sys).
    unfold bind. rewrite (step_unparsable _ _ Hu). simpl.
    destruct (Services (bigip sys) !! n) as [paths|] eqn:Hn; [done|].
    apply IH. exists n'. split; [|done].
    apply elem_of_cons in Hin as [->|Hin]; [|done].
    rewrite Hn in Hcached. by destruct Hcached.
Qed.

(** *** Turns as seen from outside *)






(** C6. A call of [AddRoutes] for one labelled service that returns
    nil has cached, under the service's name, the list its label splits
    into after lower-casing, and has sent one GET and one PUT, the PUT
    carrying the fetched records followed by one record per non-empty
    path, each with the backend pattern as data.  For the label
    [/Orders,/Billing] these are the paths [/orders] and [/billing] and
    the two records of those names. *)
Theorem multi_path_label (s : Service) (label : string) sys sys' :
  Labels (Spec s) !! SERVICE_PATH_LABEL = Some label →
  AddRoutes [s] sys = (Returned None, sys') →
  Services (bigip sys') !! SpecName (Spec s)
    = Some (strings.Split (strings.ToLower label) ",")
  ∧ (∃ get resp p1 dg put,
       clientDo get (peer sys) = (inr resp, p1)
       ∧ jsonUnmarshal (Body resp) = Some dg
       ∧ wire sys' = wire sys ++ [get; put]
       ∧ ReqMethod get = GET ∧ ReqMethod put = PUT
       ∧ jsonMarshal
           {| Records := Records dg ++
                getRecords (strings.Split (strings.ToLower label) ",")
                  (Pattern (bigip sys)) |}
         = Some (ReqBody put))
  ∧ (label = "/Orders,/Billing" →
     strings.Split (strings.ToLower label) "," = ["/orders"; "/billing"]
     ∧ getRecords (strings.Split (strings.ToLower label) ",")
         (Pattern (bigip sys))
       = [ {| Name := "/orders"; Data := Pattern (bigip sys) |};
           {| Name := "/billing"; Data := Pattern (bigip sys) |} ]).
Proof.
  intros Hlabel Hcall.
  unfold AddRoutes, AddRoutes_loop, bind in Hcall.
  change (addRoute s sys) with (step (AddItem s) sys) in Hcall.
  rewrite step_unfold in Hcall. simpl in Hcall. rewrite Hlabel in Hcall.
  simpl in Hcall.
  destruct (updateDataGroup _ false sys) as [[[e|]|p] sys1] eqn:Hrun;
    simpl in Hcall; try discriminate.
  unfold ret in Hcall. simplify_eq.
  apply updateDataGroup_success in Hrun
    as (get & resp & p1 & dg & payload & put & resp2
        & Hget & Hdo1 & H200 & Hdec & Henc & Hput & Hdo2 & H200' & Hwire & Hb).
  split; [simpl; by rewrite lookup_insert_eq|]. split.
  - exists get, resp, p1, dg, put. simpl.
    pose proof (newRequest_parses _ _ _ _ Hget) as Hu.
    rewrite newRequest_returns in Hget, Hput by done. simplify_eq. simpl.
    unfold applyRecords in Henc. rewrite appendRecords_app in Henc.
    repeat split; done.
  - intros ->. split; reflexivity.
Qed.

(** C7. When the Route Update Protocol fails for an item, at whichever
    step (the GET fails in transport, is answered a status other than
    200, or brings a body that does not decode; the PUT fails in
    transport or is answered a status other than 200), the turn reports
    the failure and leaves the receiver, Route Cache included, as it
    was; so does the call of [AddRoutes] or [RemoveRoutes] made for that
    item alone. *)
Theorem failed_update_keeps_cache it (paths : list string) sys (e : error) :
  itemPaths it (bigip sys) = Some paths →
  ProtocolFails paths (isRemove it) sys e →
  ∃ sys',
    step it sys = (Returned (Failed e), sys')
    ∧ bigip sys' = bigip sys
    ∧ match it with
      | AddItem s => AddRoutes [s] sys = (Returned (Some ErrAddRoutes), sys')
      | RemoveItem name =>
          RemoveRoutes [name] sys = (Returned (Some ErrRemoveRoutes), sys')
      end.
Proof.
  intros Hpaths HF.
  destruct (protocol_fails_returns _ _ _ _ HF) as (sys' & Hrun & Hb).
  assert (Hstep : step it sys = (Returned (Failed e), sys'))
    by (by rewrite step_unfold, Hpaths, Hrun).
  exists sys'. split; [done|]. split; [done|].
  destruct it as [s|name]; simpl in Hstep.
  - unfold AddRoutes, AddRoutes_loop, bind. by rewrite Hstep.
  - unfold RemoveRoutes, RemoveRoutes_loop, bind. by rewrite Hstep.
Qed.

End Batches.

(** *** Runs on the scripted peer *)




Example route_cache_after_add_add_remove :
  map_to_list (Services (bigip (snd (runCalls
     [CallAdd [Fixture.routed "web" "/web"; Fixture.routed "api" "/api"];
      CallRemove ["web"]]
     (Fixture.boot
        [Fixture.answer 200 "{}"; Fixture.answer 200 "";
         Fixture.answer 200 "{}"; Fixture.answer 200 "";
         Fixture.answer 200 "{}"; Fixture.answer 200 ""])))))
  = [("api", ["/api"])].
Proof. vm_compute. reflexivity. Qed.



Example failure_isolation :
  fst (AddRoutes [Fixture.routed "web" "/web"; Fixture.routed "api" "/api"]
         (Fixture.boot
            [Fixture.answer 404 ""; Fixture.answer 200 "{}";
             Fixture.answer 200 ""]))
    = Returned (Some ErrAddRoutes)
  ∧ map_to_list (Services (bigip (snd
      (AddRoutes [Fixture.routed "web" "/web"; Fixture.routed "api" "/api"]
         (Fixture.boot
            [Fixture.answer 404 ""; Fixture.answer 200 "{}";
             Fixture.answer 200 ""])))))
    = [("api", ["/api"])].
Proof. split; vm_compute; reflexivity. Qed.

(** A host with a space in it: [http.NewRequest] refuses the URL,
    [newRequest] goes on to the nil request, and the panic leaves
    [AddRoutes] with nothing sent and nothing cached. *)
Example unparsable_url_panics :
  AddRoutes [Fixture.routed "web" "/web"]
    (@mkSys Fixture.scripted
       {| Url := "http://big ip" +:+ DG_PATH +:+ "routes";
          Key := "test-key-value"; Services := ∅; Pattern := "test-pattern" |}
       [Fixture.answer 200 "{}"; Fixture.answer 200 ""] [])
  = (Panicked PanicNilDeref,
     @mkSys Fixture.scripted
       {| Url := "http://big ip" +:+ DG_PATH +:+ "routes";
          Key := "test-key-value"; Services := ∅; Pattern := "test-pattern" |}
       [Fixture.answer 200 "{}"; Fixture.answer 200 ""] []).
Proof. vm_compute. reflexivity. Qed.

(** A run of [multi_path_label]. *)
Lemma multi_path_label_witness :
  Labels (Spec (Fixture.routed "shop" "/Orders,/Billing")) !! SERVICE_PATH_LABEL
    = Some "/Orders,/Billing"
  ∧ fst (AddRoutes [Fixture.routed "shop" "/Orders,/Billing"]
           (Fixture.boot [Fixture.answer 200 "{}"; Fixture.answer 200 ""]))
    = Returned None
  ∧ Services (bigip (snd
       (AddRoutes [Fixture.routed "shop" "/Orders,/Billing"]
          (Fixture.boot [Fixture.answer 200 "{}"; Fixture.answer 200 ""]))))
       !! "shop"
    = Some ["/orders"; "/billing"].
Proof.
  split; [reflexivity|]. split; [reflexivity|].
  apply (multi_path_label (P := Fixture.scripted)
           (Fixture.routed "shop" "/Orders,/Billing") "/Orders,/Billing"
           (Fixture.boot [Fixture.answer 200 "{}"; Fixture.answer 200 ""])
           (snd (AddRoutes [Fixture.routed "shop" "/Orders,/Billing"]
                   (Fixture.boot
                      [Fixture.answer 200 "{}"; Fixture.answer 200 ""]))));
    reflexivity.
Defined.

(** A run of [failed_update_keeps_cache]: the store answers the GET
    with 404. *)
Lemma failed_update_keeps_cache_witness :
  ∃ sys',
    step (AddItem (Fixture.routed "web" "/web"))
      (Fixture.boot [Fixture.answer 404 ""])
    = (Returned (Failed (ErrStatus (Url Fixture.bigIp0) 404 "")), sys')
    ∧ bigip sys' = Fixture.bigIp0
    ∧ AddRoutes [Fixture.routed "web" "/web"]
        (Fixture.boot [Fixture.answer 404 ""])
      = (Returned (Some ErrAddRoutes), sys').
Proof.
  apply (failed_update_keeps_cache (P := Fixture.scripted)
           (AddItem (Fixture.routed "web" "/web")) ["/web"]
           (Fixture.boot [Fixture.answer 404 ""])
           (ErrStatus (Url Fixture.bigIp0) 404 "")).
  - reflexivity.
  - eapply (GetStatusFailure (P := Fixture.scripted) ["/web"] false
              (Fixture.boot [Fixture.answer 404 ""]) _
              {| StatusCode := 404; Body := "" |} []);
      [reflexivity | reflexivity | vm_compute; discriminate].
Defined.

(** ** Construction *)

Section TrimSpace.

Import strings.

Lemma append_cons (c : ascii) (a b : string) :
  String c a +:+ b = String c (a +:+ b).
Proof. reflexivity. Qed.

Lemma append_nil (b : string) : EmptyString +:+ b = b.
Proof. reflexivity. Qed.

Lemma append_assoc3 (a b c : string) : (a +:+ b) +:+ c = a +:+ (b +:+ c).
Proof.
  induction a as [|x a IH]; [done|]. rewrite !append_cons. by rewrite IH.
Qed.

Lemma append_length (a b : string) :
  String.length (a +:+ b) = (String.length a + String.length b)%nat.
Proof.
  induction a as [|x a IH]; [done|].
  rewrite append_cons. cbn [String.length]. by rewrite IH.
Qed.

Lemma append_empty (a b : string) :
  a +:+ b = EmptyString → a = EmptyString ∧ b = EmptyString.
Proof. destruct a; simpl; [done|discriminate]. Qed.

Lemma cutPrefix_Some (p s r : string) :
  cutPrefix p s = Some r ↔ s = p +:+ r.
Proof.
  revert s. induction p as [|a p IH]; intros s; simpl.
  - split; [by intros [= ->]|by intros ->].
  - destruct s as [|b s]; [split; discriminate|].
    destruct (decide (a = b)) as [->|Hne].
    + rewrite IH. split; [by intros ->|by intros [= ->]].
    + split; [discriminate|]. intros [= ? ?]. congruence.
Qed.

Lemma cutAny_Some (ws : list string) (s r : string) :
  cutAny ws s = Some r → ∃ w, w ∈ ws ∧ s = w +:+ r.
Proof.
  induction ws as [|w ws IH]; simpl; [discriminate|].
  destruct (cutPrefix w s) as [r'|] eqn:Hcut.
  - intros [= ->]. exists w. split; [left|]. by apply cutPrefix_Some.
  - intros Hrest. destruct (IH Hrest) as (w' & Hin & E).
    exists w'. split; [by right|done].
Qed.

Lemma cutAny_None (ws : list string) (s : string) :
  cutAny ws s = None → ∀ w r, w ∈ ws → s ≠ w +:+ r.
Proof.
  induction ws as [|w ws IH]; simpl; intros Hcut w' r Hin.
  - by apply elem_of_nil in Hin.
  - destruct (cutPrefix w s) as [r'|] eqn:Hw; [discriminate|].
    apply elem_of_cons in Hin as [->|Hin]; [|by apply IH].
    intros E. apply cutPrefix_Some in E. congruence.
Qed.

Lemma whiteSpace_nonempty (w : string) : w ∈ whiteSpace → w ≠ EmptyString.
Proof.
  intros Hin ->. revert Hin.
  apply (bool_decide_unpack (EmptyString ∉ whiteSpace)). by vm_compute.
Qed.

Lemma cutSpace_shorter (s r : string) :
  cutSpace s = Some r → (String.length r < String.length s)%nat.
Proof.
  intros Hcut. apply cutAny_Some in Hcut as (w & Hin & ->).
  apply whiteSpace_nonempty in Hin. rewrite append_length.
  destruct w; [done|]. simpl. lia.
Qed.

Lemma trimLeft_loop_spec (n : nat) (s : string) :
  (String.length s ≤ n)%nat →
  (∃ l, s = l +:+ trimLeft_loop n s ∧ AllSpace l)
  ∧ cutSpace (trimLeft_loop n s) = None.
Proof.
  revert s. induction n as [|n IH]; intros s Hn; simpl.
  - destruct s; [|simpl in Hn; lia].
    split; [exists EmptyString; split; [done|constructor]|done].
  - destruct (cutSpace s) as [r|] eqn:Hcut.
    + pose proof (cutSpace_shorter s r Hcut) as Hlt.
      destruct (IH r) as [(l & Hl & Hsp) Hnone]; [lia|].
      split; [|done].
      apply cutAny_Some in Hcut as (w & Hin & ->).
      exists (w +:+ l). split; [|by constructor].
      rewrite append_assoc3. by rewrite <- Hl.
    + split; [|done]. exists EmptyString. split; [done|constructor].
Qed.

Lemma trimLeft_spec (s : string) :
  (∃ l, s = l +:+ trimLeft s ∧ AllSpace l)
  ∧ ¬ StartsWithSpace (trimLeft s).
Proof.
  destruct (trimLeft_loop_spec (String.length s) s) as [Hl Hnone]; [done|].
  split; [done|]. intros (w & r & Hin & E).
  by apply (cutAny_None _ _ Hnone w r).
Qed.

Lemma EndsWithSpace_empty : ¬ EndsWithSpace EmptyString.
Proof.
  intros (l & w & Hin & E). symmetry in E.
  apply append_empty in E as [_ ->]. by apply whiteSpace_nonempty in Hin.
Qed.

Lemma trimRight_spec (s : string) :
  (∃ r, s = trimRight s +:+ r ∧ AllSpace r)
  ∧ ¬ EndsWithSpace (trimRight s).
Proof.
  induction s as [|c s [(r & Hr & Hsp) Hend]]; simpl.
  - split; [|apply EndsWithSpace_empty].
    exists EmptyString. split; [done|constructor].
  - case_bool_decide as Hin.
    + split; [|apply EndsWithSpace_empty].
      exists (String c (trimRight s) +:+ r). split; [|by constructor].
      rewrite append_nil, append_cons. by rewrite <- Hr.
    + split.
      * exists r. split; [|done]. rewrite append_cons. by rewrite <- Hr.
      * intros (l & w & Hw & E). destruct l as [|a l].
        -- rewrite append_nil in E. by subst w.
        -- rewrite append_cons in E. injection E as _ E.
           apply Hend. by exists l, w.
Qed.

Lemma trimRight_start (s : string) :
  ¬ StartsWithSpace s → ¬ StartsWithSpace (trimRight s).
Proof.
  intros Hs (w & x & Hin & E).
  destruct (trimRight_spec s) as [(r & Hr & _) _].
  apply Hs. exists w, (x +:+ r). split; [done|].
  rewrite Hr at 1. rewrite E. apply append_assoc3.
Qed.

Lemma TrimSpace_Trimmed (s : string) : Trimmed s (TrimSpace s).
Proof.
  unfold TrimSpace, Trimmed.
  destruct (trimLeft_spec s) as [(l & Hl & Hlsp) Hstart].
  destruct (trimRight_spec (trimLeft s)) as [(r & Hr & Hrsp) Hend].
  split; [|split; [by apply trimRight_start|done]].
  exists l, r. split; [|done]. by rewrite <- Hr.
Qed.

End TrimSpace.

Section ConstructionProperties.

Context `{H : Machine}.

Lemma Getenv_unset (key : string) :
  Environ !! key = None → Getenv key = EmptyString.
Proof. unfold Getenv. by intros ->. Qed.

Lemma Getenv_set (key value : string) :
  Environ !! key = Some value → Getenv key = value.
Proof. unfold Getenv. by intros ->. Qed.

Lemma length_zero_iff (s : string) :
  (String.length s =? 0)%nat = true ↔ s = EmptyString.
Proof. destruct s; simpl; split; done. Qed.

(** C9. [NewBigIpFromEnv] panics at once, reading nothing, when
    [DF_CONFIG_API] is not set (or empty).  Otherwise it is [NewBigIp]
    on the file named by [DF_BIGIP_KEY_FILE], or on
    [/run/secrets/bigip-key] when that variable is not set.  [NewBigIp]
    reads the file once and fetches the configuration once: it panics
    when the file cannot be read (before any fetch), when the fetch
    fails, when the answer is not 200 and when the document does not
    decode; otherwise it returns a [BigIp] whose key is the file's
    content with the white space around it taken off, and whose Route
    Cache is empty. *)
Theorem construction_is_fatal_or_trimmed (configApi keyFile : string) :
  (Getenv "DF_CONFIG_API" = EmptyString →
     NewBigIpFromEnv = (Panicked (PanicErr ErrMissingConfigApi), []))
  ∧ (Getenv "DF_CONFIG_API" ≠ EmptyString →
     (Environ !! "DF_BIGIP_KEY_FILE" = None →
        NewBigIpFromEnv = NewBigIp (Getenv "DF_CONFIG_API") BIGIP_KEY_FILE)
     ∧ (∀ path, Environ !! "DF_BIGIP_KEY_FILE" = Some path →
          path ≠ EmptyString →
          NewBigIpFromEnv = NewBigIp (Getenv "DF_CONFIG_API") path))
  ∧ (∀ err, ReadFile keyFile = inl err →
       NewBigIp configApi keyFile
       = (Panicked (PanicErr err), [IoReadFile keyFile]))
  ∧ (∀ content, ReadFile keyFile = inr content →
       (∀ err, httpGet configApi = inl err →
          NewBigIp configApi keyFile
          = (Panicked (PanicErr err),
             [IoReadFile keyFile; IoHttpGet configApi]))
       ∧ (∀ res, httpGet configApi = inr res →
            (StatusCode res ≠ StatusOK →
               NewBigIp configApi keyFile
               = (Panicked (PanicErr (ErrConfigStatus configApi)),
                  [IoReadFile keyFile; IoHttpGet configApi]))
            ∧ (StatusCode res = StatusOK →
               (∀ err, jsonUnmarshalConfig (Body res) = inl err →
                  NewBigIp configApi keyFile
                  = (Panicked (PanicErr err),
                     [IoReadFile keyFile; IoHttpGet configApi]))
               ∧ (∀ config, jsonUnmarshalConfig (Body res) = inr config →
                    ∃ b, NewBigIp configApi keyFile
                         = (Returned b,
                            [IoReadFile keyFile; IoHttpGet configApi])
                         ∧ Key b = strings.TrimSpace content
                         ∧ strings.Trimmed content (Key b)
                         ∧ Url b = (Host config +:+ DG_PATH)
                                     +:+ DataGroupName config
                         ∧ Pattern b = PoolPattern config
                         ∧ Services b = ∅)))).
Proof.
  split; [|split; [|split]].
  - intros Hmissing. unfold NewBigIpFromEnv. by rewrite Hmissing.
  - intros Hapi.
    assert ((String.length (Getenv "DF_CONFIG_API") =? 0)%nat = false) as Hlen.
    { apply not_true_iff_false. by rewrite length_zero_iff. }
    split.
    + intros Hunset. unfold NewBigIpFromEnv. rewrite Hlen.
      by rewrite (Getenv_unset "DF_BIGIP_KEY_FILE" Hunset).
    + intros path Hset Hpath. unfold NewBigIpFromEnv. rewrite Hlen.
      rewrite (Getenv_set "DF_BIGIP_KEY_FILE" path Hset).
      assert ((String.length path =? 0)%nat = false) as ->; [|done].
      apply not_true_iff_false. by rewrite length_zero_iff.
  - intros err Hread. unfold NewBigIp. by rewrite Hread.
  - intros content Hread. unfold NewBigIp, readConfig. rewrite Hread. split.
    + intros err Hget. by rewrite Hget.
    + intros res Hget. rewrite Hget. split.
      * intros Hcode. by destruct (decide (StatusCode res ≠ StatusOK)).
      * intros Hcode.
        destruct (decide (StatusCode res ≠ StatusOK)) as [|_]; [done|].
        split.
        -- intros err Hdec. by rewrite Hdec.
        -- intros config Hdec. rewrite Hdec. eexists. split; [done|]. simpl.
           repeat split; try done; apply TrimSpace_Trimmed.
Qed.

End ConstructionProperties.

(** *** Construction on the fixture machine *)

Example construction_with_defaults :
  @NewBigIpFromEnv
    (Fixture.machine [("DF_CONFIG_API", "http://config.example/bigip")])
  = (Returned Fixture.bigIp0,
     [IoReadFile "/run/secrets/bigip-key";
      IoHttpGet "http://config.example/bigip"]).
Proof. vm_compute. reflexivity. Qed.

Example construction_with_key_file :
  @NewBigIpFromEnv
    (Fixture.machine [("DF_CONFIG_API", "http://config.example/bigip");
                      ("DF_BIGIP_KEY_FILE", "/tmp/secrets/bigip-test-key")])
  = (Returned {| Url := Url Fixture.bigIp0; Key := "other-key";
                 Services := ∅; Pattern := "test-pattern" |},
     [IoReadFile "/tmp/secrets/bigip-test-key";
      IoHttpGet "http://config.example/bigip"]).
Proof. vm_compute. reflexivity. Qed.

Example construction_panics :
  @NewBigIpFromEnv (Fixture.machine [])
    = (Panicked (PanicErr ErrMissingConfigApi), [])
  ∧ @NewBigIpFromEnv
      (Fixture.machine [("DF_CONFIG_API", "http://config.example/bigip");
                        ("DF_BIGIP_KEY_FILE", "/nowhere")])
    = (Panicked (PanicErr (ErrLib "no such file or directory")),
       [IoReadFile "/nowhere"])
  ∧ @NewBigIpFromEnv
      (Fixture.machine [("DF_CONFIG_API", "http://config.example/missing")])
    = (Panicked (PanicErr (ErrConfigStatus "http://config.example/missing")),
       [IoReadFile "/run/secrets/bigip-key";
        IoHttpGet "http://config.example/missing"])
  ∧ @NewBigIpFromEnv
      (Fixture.machine [("DF_CONFIG_API", "http://config.example/broken")])
    = (Panicked (PanicErr (ErrLib "invalid character")),
       [IoReadFile "/run/secrets/bigip-key";
        IoHttpGet "http://config.example/broken"])
  ∧ @NewBigIpFromEnv
      (Fixture.machine [("DF_CONFIG_API", "http://nowhere.example/")])
    = (Panicked (PanicErr (ErrLib "no such host")),
       [IoReadFile "/run/secrets/bigip-key";
        IoHttpGet "http://nowhere.example/"]).
Proof. repeat split; vm_compute; reflexivity. Qed.

(** A run of [construction_is_fatal_or_trimmed]: the key file holds the
    key between a space and a line feed. *)
Lemma construction_is_fatal_or_trimmed_witness :
  ∃ b,
    @NewBigIp
      (Fixture.machine [("DF_CONFIG_API", "http://config.example/bigip")])
      "http://config.example/bigip" BIGIP_KEY_FILE
    = (Returned b,
       [IoReadFile BIGIP_KEY_FILE; IoHttpGet "http://config.example/bigip"])
    ∧ Key b = "test-key-value"
    ∧ Services b = ∅.
Proof.
  destruct (@construction_is_fatal_or_trimmed
              (Fixture.machine
                 [("DF_CONFIG_API", "http://config.example/bigip")])
              "http://config.example/bigip" BIGIP_KEY_FILE)
    as (_ & _ & _ & Hread).
  destruct (Hread _ eq_refl) as [_ Hget].
  destruct (Hget _ eq_refl) as [_ H200].
  destruct (H200 eq_refl) as [_ Hdecode].
  destruct (Hdecode _ eq_refl) as (b & Hnew & Hkey & _ & _ & _ & Hcache).
  exists b. split; [exact Hnew|]. split; [exact Hkey|exact Hcache].
Defined.

(** ** The reconciliation loop *)

Section LoopProperties.

Context `{P : Platform} `{H : Machine} `{C : Collaborators}.

Implicit Types (pr : Proc).

(** Every turn of the loop starts by asking for a snapshot. *)
Lemma iteration_starts pr :
  ∃ more, trace (snd (iteration pr)) = trace pr ++ EvGetServices :: more.
Proof.
  unfold iteration.
  destruct (GetServices (ext pr)) as [[allServices err1] x1].
  destruct (GetNewServices allServices _) as [[newServices err2] x2].
  destruct (ServicesCreate newServices _ _ _) as [err3 x3].
  destruct (AddRoutes newServices _) as [[r|p] s1].
  - destruct (GetRemovedServices allServices _) as [removed x4].
    destruct (ServicesRemove removed _ _ _) as [err4 x5].
    destruct (RemoveRoutes removed _) as [[r'|p'] s2];
      destruct err1, err2, err3, err4; simpl;
      rewrite <- ?app_assoc; simpl; eauto.
  - destruct err1, err2, err3; simpl; rewrite <- ?app_assoc; simpl; eauto.
Qed.

(** The only tags a turn hands to [metrics.RecordError] are those of the
    snapshot source, the diff engine and the notification dispatcher. *)
Lemma iteration_records pr what :
  what ∈ recordedErrors (snd (iteration pr)) →
  what ∈ recordedErrors pr
  ∨ what ∈ ["GetServices"; "GetNewServices"; "ServicesCreate"; "ServicesRemove"].
Proof.
  unfold iteration.
  destruct (GetServices (ext pr)) as [[allServices err1] x1].
  destruct (GetNewServices allServices _) as [[newServices err2] x2].
  destruct (ServicesCreate newServices _ _ _) as [err3 x3].
  destruct (AddRoutes newServices _) as [[r|p] s1].
  - destruct (GetRemovedServices allServices _) as [removed x4].
    destruct (ServicesRemove removed _ _ _) as [err4 x5].
    destruct (RemoveRoutes removed _) as [[r'|p'] s2];
      destruct err1, err2, err3, err4; unfold recordedErrors; simpl;
      rewrite !omap_app; simpl;
      rewrite ?app_nil_r, ?elem_of_app, !elem_of_cons, ?elem_of_nil; tauto.
  - destruct err1, err2, err3; unfold recordedErrors; simpl;
      rewrite !omap_app; simpl;
      rewrite ?app_nil_r, ?elem_of_app, !elem_of_cons, ?elem_of_nil; tauto.
Qed.

Lemma sys_emit pr e : sys (emit e pr) = sys pr.
Proof. done. Qed.

Lemma sys_setExt pr x : sys (setExt pr x) = sys pr.
Proof. done. Qed.

Lemma sys_recordErrorIf pr err what : sys (recordErrorIf err what pr) = sys pr.
Proof. by destruct err. Qed.

(** With a URL that parses, a turn of the loop runs to its sleep,
    whatever the collaborators and the route store answer. *)
Lemma iteration_completes pr :
  urlParses (Url (bigip (sys pr))) = true →
  ∃ pr', iteration pr = (Returned tt, pr')
         ∧ Url (bigip (sys pr')) = Url (bigip (sys pr))
         ∧ ∃ before, trace pr' = before ++ [EvSleep Interval].
Proof.
  intros Hu. unfold iteration.
  destruct (GetServices (ext pr)) as [[allServices err1] x1].
  destruct (GetNewServices allServices _) as [[newServices err2] x2].
  destruct (ServicesCreate newServices _ _ _) as [err3 x3].
  repeat first
    [rewrite sys_emit | rewrite sys_setExt | rewrite sys_recordErrorIf].
  destruct (runCall_returns (CallAdd newServices) (sys pr) Hu)
    as (r & s1 & Hadd & HU1).
  simpl in Hadd. rewrite Hadd.
  destruct (GetRemovedServices allServices _) as [removed x4].
  destruct (ServicesRemove removed _ _ _) as [err4 x5].
  repeat first
    [rewrite sys_emit | rewrite sys_setExt | rewrite sys_recordErrorIf].
  cbn [sys setSys].
  destruct (runCall_returns (CallRemove removed) s1) as (r' & s2 & Hrm & HU2);
    [congruence|].
  simpl in Hrm. rewrite Hrm.
  eexists. split; [done|]. split.
  - simpl. congruence.
  - simpl. eauto.
Qed.

Lemma loop_completes n pr :
  urlParses (Url (bigip (sys pr))) = true →
  ∃ pr', loop n pr = (Returned tt, pr').
Proof.
  revert pr. induction n as [|n IH]; intros pr Hu; simpl; [eauto|].
  destruct (iteration_completes pr Hu) as (pr1 & -> & HUrl & _).
  apply IH. by rewrite HUrl.
Qed.

(** C10. Once construction has returned, [main] with an empty
    create-notification address returns without a single turn of the
    loop: nothing is called, no request is sent, the collaborators are
    left as they were.  With a non-empty address it is the loop, and the
    loop's first turn starts. *)
Theorem reconciliation_is_guarded (n : nat) (peer0 : Peer) (ext0 : Ext)
    (b : BigIp) (io : list IO) :
  NewBigIpFromEnv = (Returned b, io) →
  (CreateServiceAddr = EmptyString →
     main n peer0 ext0
     = (Returned tt,
        Some {| sys := {| bigip := b; peer := peer0; wire := [] |};
                ext := ext0; trace := [] |}))
  ∧ (CreateServiceAddr ≠ EmptyString →
     main n peer0 ext0
     = (fst (loop n {| sys := {| bigip := b; peer := peer0; wire := [] |};
                       ext := ext0; trace := [] |}),
        Some (snd (loop n {| sys := {| bigip := b; peer := peer0; wire := [] |};
                             ext := ext0; trace := [] |})))
     ∧ ∃ more,
         trace (snd (iteration
                       {| sys := {| bigip := b; peer := peer0; wire := [] |};
                          ext := ext0; trace := [] |}))
         = EvGetServices :: more)
  ∧ (∀ o pr, main n peer0 ext0 = (o, Some pr) →
       trace pr ≠ [] ∨ wire (sys pr) ≠ [] →
       CreateServiceAddr ≠ EmptyString).
Proof.
  intros Hnew. unfold main. rewrite Hnew.
  split; [|split].
  - intros ->. done.
  - intros Haddr.
    assert ((0 <? String.length CreateServiceAddr)%nat = true) as ->.
    { destruct CreateServiceAddr; [done|]. done. }
    split; [by destruct (loop n _)|].
    apply (iteration_starts
             {| sys := {| bigip := b; peer := peer0; wire := [] |};
                ext := ext0; trace := [] |}).
  - intros o pr Hmain Hsome Haddr. rewrite Haddr in Hmain. simpl in Hmain.
    simplify_eq. simpl in Hsome. by destruct Hsome.
Qed.

End LoopProperties.

(** *** The loop on the fixture cluster *)

(** A run of [reconciliation_is_guarded]: no create-notification
    address is configured. *)
Lemma reconciliation_is_guarded_witness :
  @NewBigIpFromEnv
    (Fixture.machine [("DF_CONFIG_API", "http://config.example/bigip")])
  = (Returned Fixture.bigIp0,
     [IoReadFile "/run/secrets/bigip-key";
      IoHttpGet "http://config.example/bigip"])
  ∧ @main Fixture.scripted
      (Fixture.machine [("DF_CONFIG_API", "http://config.example/bigip")])
      (Fixture.cluster "") 3 [Fixture.answer 200 "{}"] 0%nat
    = (Returned tt,
       Some (@mkProc Fixture.scripted (Fixture.cluster "")
               (Fixture.boot [Fixture.answer 200 "{}"]) 0%nat [])).
Proof.
  split; [vm_compute; reflexivity|].
  apply (@reconciliation_is_guarded Fixture.scripted
           (Fixture.machine [("DF_CONFIG_API", "http://config.example/bigip")])
           (Fixture.cluster "") 3 [Fixture.answer 200 "{}"] 0%nat
           Fixture.bigIp0
           [IoReadFile "/run/secrets/bigip-key";
            IoHttpGet "http://config.example/bigip"]).
  - vm_compute. reflexivity.
  - reflexivity.
Defined.

(** C8, where the code departs from it.  The first snapshot holds [web],
    routed under [/web]; the proxy takes the notification; the route
    store answers the GET with 404.  [AddRoutes] returns its error, the
    turn goes on to the sleep, and [metrics.RecordError] is never
    called: [main] drops what [AddRoutes] returns. *)
Example route_failure_is_not_recorded :
  fst (AddRoutes [Fixture.routed "web" "/web"]
         (Fixture.boot [Fixture.answer 404 ""]))
    = Returned (Some ErrAddRoutes)
  ∧ ∃ pr,
      @main Fixture.scripted
        (Fixture.machine [("DF_CONFIG_API", "http://config.example/bigip")])
        (Fixture.cluster "http://proxy:8080/v1/docker-flow-proxy/reconfigure")
        1 [Fixture.answer 404 ""] 0%nat
      = (Returned tt, Some pr)
      ∧ trace pr
        = [EvGetServices; EvGetNewServices;
           EvServicesCreate [Fixture.routed "web" "/web"];
           EvAddRoutes [Fixture.routed "web" "/web"];
           EvGetRemovedServices; EvServicesRemove [];
           EvRecordService 1; EvRemoveRoutes []; EvSleep 5]
      ∧ recordedErrors pr = []
      ∧ ReqMethod <$> wire (sys pr) = [GET].
Proof.
  split; [vm_compute; reflexivity|].
  eexists. split; [vm_compute; reflexivity|].
  repeat split; vm_compute; reflexivity.
Qed.

(** * Further properties

    ** Candidate records and the two modes *)

Section Records.

Implicit Types (from remove records : list Record_) (dg : DataGroup).

Lemma retained_app from from' remove :
  retained (from ++ from') remove
  = retained from remove ++ retained from' remove.
Proof. unfold retained. apply filter_app. Qed.

Lemma retained_cons (r : Record_) from remove :
  retained (r :: from) remove
  = if decide (Name r ∈ Name <$> remove) then retained from remove
    else r :: retained from remove.
Proof.
  unfold retained. destruct (decide (Name r ∈ Name <$> remove)) as [Hin|Hin].
  - rewrite filter_cons_False; [done|]. intros Hn. by apply Hn.
  - by rewrite filter_cons_True.
Qed.

Lemma retained_all from remove :
  (∀ r t, r ∈ from → t ∈ remove → Name r ≠ Name t) →
  retained from remove = from.
Proof.
  intros Hfree. unfold retained.
  induction from as [|r from IH]; [done|].
  rewrite filter_cons_True.
  - f_equal. apply IH. intros r' t Hr'. apply Hfree. by right.
  - intros Hin. apply list_elem_of_fmap in Hin as (t & E & Ht).
    eapply Hfree; [left|exact Ht|exact E].
Qed.

Lemma retained_none records remove :
  (∀ r, r ∈ records → Name r ∈ (Name <$> remove)) →
  retained records remove = [].
Proof.
  intros Hall. unfold retained.
  induction records as [|r records IH]; [done|].
  rewrite filter_cons_False by (intros Hn; apply Hn, Hall; left).
  apply IH. intros r' Hr'. apply Hall. by right.
Qed.

(** The candidate records are the non-empty paths, in order, each with
    the pattern as data; there is none iff every path is empty. *)
Theorem getRecords_one_per_nonempty_path (paths : list string)
    (pattern : string) :
  getRecords paths pattern
  = (λ path, {| Name := path; Data := pattern |})
      <$> filter (λ path, path ≠ EmptyString) paths
  ∧ (getRecords paths pattern = [] ↔
     ∀ path, path ∈ paths → path = EmptyString).
Proof.
  split.
  - induction paths as [|path rest IH]; [done|].
    destruct path as [|c path].
    + change (getRecords (EmptyString :: rest) pattern)
        with (getRecords rest pattern).
      rewrite filter_cons_False by (intros Hne; by apply Hne). exact IH.
    + change (getRecords (String c path :: rest) pattern)
        with ({| Name := String c path; Data := pattern |}
                :: getRecords rest pattern).
      rewrite filter_cons_True by done. rewrite fmap_cons. by f_equal.
  - induction paths as [|path rest IH]; simpl.
    + split; [|done]. intros _ path Hin. by apply elem_of_nil in Hin.
    + destruct path as [|c path]; simpl.
      * rewrite IH. split.
        -- intros Hall path Hin.
           apply elem_of_cons in Hin as [->|Hin]; [done|by apply Hall].
        -- intros Hall path Hin. apply Hall. by right.
      * split; [done|]. intros Hall.
        discriminate (Hall (String c path)); left.
Qed.

(** The loop of [removeRecords] with the array it leaves behind: the
    kept records come first, the old content stays beyond them. *)
Lemma removeRecords_loop_array remove todo :
  ∀ (done_ : list Record_) (k : nat),
    k = length (retained done_ remove) →
    removeRecords_loop remove (length todo) (length done_) k
      (retained done_ remove ++ drop k (done_ ++ todo))
    = (length (retained (done_ ++ todo) remove),
       retained (done_ ++ todo) remove
         ++ drop (length (retained (done_ ++ todo) remove)) (done_ ++ todo)).
Proof.
  induction todo as [|r todo IH]; intros done_ k ->.
  - simpl. by rewrite app_nil_r.
  - assert (Hk : length (retained done_ remove) ≤ length done_)
      by apply length_filter.
    assert (Hr : (retained done_ remove
                    ++ drop (length (retained done_ remove))
                         (done_ ++ r :: todo)) !! length done_ = Some r).
    { rewrite lookup_app_r by lia. rewrite lookup_drop.
      replace (length (retained done_ remove)
               + (length done_ - length (retained done_ remove)))
        with (length done_ + 0) by lia.
      by rewrite lookup_app_r, Nat.add_0_r, Nat.sub_diag by lia. }
    simpl. rewrite Hr.
    assert (Hsplit : done_ ++ r :: todo = (done_ ++ [r]) ++ todo)
      by by rewrite <- app_assoc.
    assert (HS : S (length done_) = length (done_ ++ [r]))
      by (rewrite length_app; simpl; lia).
    destruct (containsRecord remove r) eqn:Hc; simpl.
    + assert (Hkeep : retained (done_ ++ [r]) remove = retained done_ remove).
      { rewrite retained_app. unfold retained at 2.
        rewrite filter_cons_False, filter_nil, app_nil_r; [done|].
        apply containsRecord_spec in Hc. naive_solver. }
      rewrite HS, Hsplit, <- Hkeep. apply IH. by rewrite Hkeep.
    + assert (Hkeep : retained (done_ ++ [r]) remove
                      = retained done_ remove ++ [r]).
      { rewrite retained_app. unfold retained at 2.
        rewrite filter_cons_True, filter_nil; [done|].
        by apply containsRecord_false. }
      rewrite HS, Hsplit.
      rewrite <- (IH (done_ ++ [r]) (S (length (retained done_ remove))))
        by (rewrite Hkeep, length_app; simpl; lia).
      f_equal. rewrite Hkeep, <- Hsplit.
      rewrite <- (Nat.add_0_r (length (retained done_ remove))) at 1.
      rewrite insert_app_r.
      assert (Hlt : length (retained done_ remove)
                    < length (done_ ++ r :: todo))
        by (rewrite length_app; simpl; lia).
      destruct (drop (length (retained done_ remove)) (done_ ++ r :: todo))
        as [|x rest] eqn:Hdrop.
      { apply (f_equal length) in Hdrop. rewrite length_drop in Hdrop.
        simpl in Hdrop. lia. }
      simpl. rewrite <- app_assoc. simpl. do 2 f_equal.
      by apply drop_next in Hdrop.
Qed.

(** [removeRecords] works in place: it returns the first places of the
    array its argument lives in, which afterwards holds the kept
    records there and its old content beyond them. *)
Theorem removeRecords_overwrites_its_argument from remove :
  removeRecords_loop remove (length from) 0 0 from
  = (length (removeRecords from remove),
     removeRecords from remove
       ++ drop (length (removeRecords from remove)) from).
Proof.
  rewrite removeRecords_retained.
  exact (removeRecords_loop_array remove from [] 0%nat eq_refl).
Qed.

(** Removing in two rounds is removing the two candidate lists at once;
    a second round with the same candidates changes nothing, no
    candidate removes nothing, and nothing is ever added. *)
Theorem removeRecords_composes from (a b : list Record_) :
  removeRecords (removeRecords from a) b = removeRecords from (a ++ b)
  ∧ removeRecords (removeRecords from a) a = removeRecords from a
  ∧ removeRecords from [] = from
  ∧ length (removeRecords from a) ≤ length from.
Proof.
  rewrite !removeRecords_retained.
  split; [|split; [|split]].
  - induction from as [|r from IH]; [done|].
    rewrite !retained_cons, fmap_app, <- IH.
    destruct (decide (Name r ∈ Name <$> a)) as [Ha|Ha].
    + rewrite decide_True; [done|]. apply elem_of_app. by left.
    + rewrite retained_cons.
      destruct (decide (Name r ∈ Name <$> b)) as [Hb|Hb].
      * rewrite decide_True; [done|]. apply elem_of_app. by right.
      * rewrite decide_False; [done|]. rewrite elem_of_app. tauto.
  - induction from as [|r from IH]; [done|].
    rewrite !retained_cons.
    destruct (decide (Name r ∈ Name <$> a)) as [Ha|Ha]; [done|].
    by rewrite retained_cons, decide_False, IH.
  - apply retained_all. intros r t _ Ht. by apply elem_of_nil in Ht.
  - apply length_filter.
Qed.

Lemma remove_after_append dg records :
  (∀ r t, r ∈ Records dg → t ∈ records → Name r ≠ Name t) →
  applyRecords true (applyRecords false dg records) records = dg.
Proof.
  intros Hfree. destruct dg as [fetched]. unfold applyRecords. simpl in *.
  rewrite removeRecords_retained, appendRecords_app, retained_app.
  rewrite (retained_all fetched records Hfree).
  rewrite retained_none, app_nil_r; [done|].
  intros r Hr. by apply list_elem_of_fmap_2.
Qed.

Lemma elem_of_getRecords (paths : list string) (pattern : string)
    (r : Record_) :
  r ∈ getRecords paths pattern → Name r ∈ paths ∧ Data r = pattern.
Proof.
  induction paths as [|path rest IH]; simpl; [by rewrite elem_of_nil|].
  destruct (0 <? String.length path)%nat.
  - rewrite elem_of_cons. intros [->|Hin]; [split; [left|done]|].
    destruct (IH Hin). split; [by right|done].
  - intros Hin. destruct (IH Hin). split; [by right|done].
Qed.

(** Remove mode undoes append mode when no fetched record bears the
    name of a candidate. *)
Theorem remove_undoes_append dg records :
  (∀ r t, r ∈ Records dg → t ∈ records → Name r ≠ Name t) →
  applyRecords true (applyRecords false dg records) records = dg.
Proof. exact (remove_after_append dg records). Qed.

(** Append mode does not look for namesakes, so a second append leaves
    every candidate twice; one round of remove mode takes both copies
    and leaves what removing from the fetched collection leaves. *)
Theorem one_remove_clears_duplicates dg records :
  Records (applyRecords false (applyRecords false dg records) records)
  = Records dg ++ records ++ records
  ∧ applyRecords true
      (applyRecords false (applyRecords false dg records) records) records
    = applyRecords true dg records.
Proof.
  destruct dg as [fetched]. unfold applyRecords. simpl.
  rewrite !appendRecords_app, <- app_assoc. split; [done|].
  rewrite !removeRecords_retained, !retained_app.
  rewrite (retained_none records records), !app_nil_r; [done|].
  intros r Hr. by apply list_elem_of_fmap_2.
Qed.

End Records.

(** A run of [remove_undoes_append]. *)
Lemma remove_undoes_append_witness :
  applyRecords true
    (applyRecords false
       {| Records := [ {| Name := "/old"; Data := "pool" |} ] |}
       [ {| Name := "/a"; Data := "pool" |}; {| Name := "/b"; Data := "pool" |} ])
    [ {| Name := "/a"; Data := "pool" |}; {| Name := "/b"; Data := "pool" |} ]
  = {| Records := [ {| Name := "/old"; Data := "pool" |} ] |}.
Proof.
  apply (remove_undoes_append
           {| Records := [ {| Name := "/old"; Data := "pool" |} ] |}
           [ {| Name := "/a"; Data := "pool" |};
             {| Name := "/b"; Data := "pool" |} ]).
  intros r t Hr Ht. simpl in Hr.
  apply list_elem_of_singleton in Hr as ->.
  apply elem_of_cons in Ht as [->|Ht]; [done|].
  apply list_elem_of_singleton in Ht as ->. done.
Defined.

(** ** What the calls send, keep and touch *)

Section Calls.

Context `{P : Platform}.

Implicit Types (sys : Sys) (it : Item) (log : list (Item * ItemResult)).

Lemma newRequest_carriesKey (b : BigIp) (m : Method) (body : string)
    (req : Request) :
  newRequest b m body = Returned req →
  carriesKey b req ∧ ReqMethod req = m ∧ ReqBody req = body.
Proof.
  intros Hreq. pose proof (newRequest_parses _ _ _ _ Hreq) as Hu.
  rewrite newRequest_returns in Hreq by done. by simplify_eq.
Qed.

(** The protocol, request by request. *)
Lemma updateDataGroup_wire paths remove sys :
  match newRequest (bigip sys) GET EmptyString with
  | Panicked _ => wire (snd (updateDataGroup paths remove sys)) = wire sys
  | Returned get =>
      wire (snd (updateDataGroup paths remove sys)) = wire sys ++ [get]
      ∨ ∃ resp p1 dg payload put,
          clientDo get (peer sys) = (inr resp, p1)
          ∧ StatusCode resp = StatusOK
          ∧ jsonUnmarshal (Body resp) = Some dg
          ∧ jsonMarshal (applyRecords remove dg
                           (getRecords paths (Pattern (bigip sys))))
            = Some payload
          ∧ newRequest (bigip sys) PUT payload = Returned put
          ∧ wire (snd (updateDataGroup paths remove sys))
            = wire sys ++ [get; put]
  end.
Proof.
  unfold updateDataGroup, bind, getBigIp, liftO, Do, ret. simpl.
  destruct (newRequest (bigip sys) GET "") as [get|] eqn:Hget; [|done].
  destruct (clientDo get (peer sys)) as [[cause|resp] p1] eqn:Hdo1;
    simpl; [by left|].
  destruct (decide (StatusCode resp = StatusOK)) as [H200|]; [|by left].
  destruct (jsonUnmarshal (Body resp)) as [dg|] eqn:Hdec; [|by left].
  destruct (jsonMarshal _) as [payload|] eqn:Henc; [|by left].
  simpl.
  pose proof (newRequest_parses _ _ _ _ Hget) as Hu.
  pose proof (newRequest_returns (bigip sys) PUT payload Hu) as Hput.
  rewrite Hput.
  match type of Hput with _ = Returned ?r => set (put := r) in * end.
  right. exists resp, p1, dg, payload, put.
  repeat split; try done.
  destruct (clientDo put p1) as [[cause|resp2] p2]; simpl;
    [|destruct (decide (StatusCode resp2 ≠ StatusOK))]; simpl;
    by rewrite <- app_assoc.
Qed.

Lemma updateDataGroup_sent paths remove sys :
  ∃ sent, wire (snd (updateDataGroup paths remove sys)) = wire sys ++ sent
          ∧ Forall (carriesKey (bigip sys)) sent
          ∧ length sent ≤ 2.
Proof.
  pose proof (updateDataGroup_wire paths remove sys) as Hwire.
  destruct (newRequest (bigip sys) GET "") as [get|] eqn:Hget.
  - apply newRequest_carriesKey in Hget as [Hget _].
    destruct Hwire as [->|(resp & p1 & dg & payload & put & _ & _ & _ & _
                           & Hput & ->)].
    + exists [get]. split; [done|]. split; [|simpl; lia].
      by apply Forall_cons.
    + apply newRequest_carriesKey in Hput as [Hput _].
      exists [get; put]. split; [done|]. split; [|simpl; lia].
      apply Forall_cons. split; [done|]. by apply Forall_cons.
  - exists []. rewrite app_nil_r. split; [done|]. split; [|simpl; lia].
    apply Forall_nil_2.
Qed.

(** A turn leaves the URL, the key and the pattern alone. *)
Lemma step_config it sys o sys1 :
  step it sys = (o, sys1) →
  Url (bigip sys1) = Url (bigip sys)
  ∧ Key (bigip sys1) = Key (bigip sys)
  ∧ Pattern (bigip sys1) = Pattern (bigip sys).
Proof.
  rewrite step_unfold.
  destruct (itemPaths it (bigip sys)) as [paths|];
    [|intros; by simplify_eq].
  pose proof (updateDataGroup_bigip paths (isRemove it) sys) as Hb.
  destruct (updateDataGroup paths (isRemove it) sys) as [[[e|]|p] sys0];
    simpl in Hb; intros; simplify_eq; simpl; by rewrite ?Hb.
Qed.

Lemma carriesKey_config (b b' : BigIp) (req : Request) :
  Url b' = Url b → Key b' = Key b → carriesKey b' req → carriesKey b req.
Proof. unfold carriesKey. by intros -> ->. Qed.

Lemma step_sent it sys :
  ∃ sent, wire (snd (step it sys)) = wire sys ++ sent
          ∧ Forall (carriesKey (bigip sys)) sent
          ∧ length sent ≤ 2.
Proof.
  rewrite step_unfold.
  destruct (itemPaths it (bigip sys)) as [paths|].
  - destruct (updateDataGroup_sent paths (isRemove it) sys)
      as (sent & Hwire & Hsent).
    exists sent.
    destruct (updateDataGroup paths (isRemove it) sys) as [[[e|]|p] sys0];
      simpl in *; by split.
  - exists []. simpl. rewrite app_nil_r.
    split; [done|]. split; [apply Forall_nil_2|simpl; lia].
Qed.

Lemma steps_config its sys :
  Url (bigip (snd (steps its sys))) = Url (bigip sys)
  ∧ Key (bigip (snd (steps its sys))) = Key (bigip sys)
  ∧ Pattern (bigip (snd (steps its sys))) = Pattern (bigip sys).
Proof.
  revert sys. induction its as [|it rest IH]; intros sys; [done|].
  rewrite steps_cons.
  destruct (step it sys) as [[r|p] sys1] eqn:Hstep;
    apply step_config in Hstep as (HU & HK & HP); [|done].
  specialize (IH sys1). destruct (steps rest sys1) as [log sys2].
  simpl in *. destruct IH as (-> & -> & ->). done.
Qed.

Lemma steps_sent its sys :
  ∃ sent, wire (snd (steps its sys)) = wire sys ++ sent
          ∧ Forall (carriesKey (bigip sys)) sent
          ∧ length sent ≤ 2 * length its.
Proof.
  revert sys. induction its as [|it rest IH]; intros sys.
  - exists []. simpl. rewrite app_nil_r.
    split; [done|]. split; [apply Forall_nil_2|lia].
  - rewrite steps_cons.
    destruct (step_sent it sys) as (sent1 & Hwire1 & Hsent1 & Hlen1).
    destruct (step it sys) as [[r|p] sys1] eqn:Hstep; simpl in Hwire1.
    + apply step_config in Hstep as (HU & HK & _).
      destruct (IH sys1) as (sent2 & Hwire2 & Hsent2 & Hlen2).
      destruct (steps rest sys1) as [log sys2]. simpl in *.
      exists (sent1 ++ sent2). rewrite Hwire2, Hwire1, app_assoc.
      split; [done|]. split.
      * apply Forall_app. split; [done|].
        eapply Forall_impl; [exact Hsent2|].
        intros req. by apply carriesKey_config.
      * rewrite length_app. lia.
    + exists sent1. simpl. split; [done|]. split; [done|lia].
Qed.

(** Over any sequence of calls the wire only grows, every request
    added goes to the URL of the receiver with the two headers of
    [newRequest], the key among them, and there are at most two of them
    for each item of the calls. *)
Theorem every_request_carries_the_key (cs : list Call) sys :
  ∃ sent,
    wire (snd (runCalls cs sys)) = wire sys ++ sent
    ∧ Forall (carriesKey (bigip sys)) sent
    ∧ length sent ≤ 2 * length (cs ≫= callItems).
Proof. rewrite runCalls_steps. apply steps_sent. Qed.

(** The protocol sends the GET and then at most the PUT, and the PUT
    only once the GET was answered 200 with a body that decodes and the
    new collection is encoded. *)
Theorem protocol_sends_get_then_put paths remove sys :
  urlParses (Url (bigip sys)) = true →
  ∃ get,
    newRequest (bigip sys) GET EmptyString = Returned get
    ∧ (wire (snd (updateDataGroup paths remove sys)) = wire sys ++ [get]
       ∨ ∃ resp p1 dg payload put,
           clientDo get (peer sys) = (inr resp, p1)
           ∧ StatusCode resp = StatusOK
           ∧ jsonUnmarshal (Body resp) = Some dg
           ∧ jsonMarshal (applyRecords remove dg
                            (getRecords paths (Pattern (bigip sys))))
             = Some payload
           ∧ ReqMethod put = PUT ∧ ReqBody put = payload
           ∧ carriesKey (bigip sys) put
           ∧ wire (snd (updateDataGroup paths remove sys))
             = wire sys ++ [get; put]).
Proof.
  intros Hu. pose proof (updateDataGroup_wire paths remove sys) as Hwire.
  rewrite (newRequest_returns (bigip sys) GET "" Hu) in Hwire.
  eexists. split; [by apply newRequest_returns|].
  destruct Hwire as [Hone|(resp & p1 & dg & payload & put & H1 & H2 & H3 & H4
                           & Hput & Hwire)]; [by left|].
  right. exists resp, p1, dg, payload, put.
  apply newRequest_carriesKey in Hput as (Hk & Hm & Hb). done.
Qed.

(** No call changes the URL, the key or the pattern of the receiver. *)
Theorem calls_keep_configuration (cs : list Call) sys :
  Url (bigip (snd (runCalls cs sys))) = Url (bigip sys)
  ∧ Key (bigip (snd (runCalls cs sys))) = Key (bigip sys)
  ∧ Pattern (bigip (snd (runCalls cs sys))) = Pattern (bigip sys).
Proof. rewrite runCalls_steps. apply steps_config. Qed.

End Calls.

(** A run of [protocol_sends_get_then_put]: the GET is answered 404 and
    no PUT follows. *)
Lemma protocol_sends_get_then_put_witness :
  ∃ get,
    wire (snd (updateDataGroup ["/a"] false
                 (Fixture.boot [Fixture.answer 404 ""])))
    = [get]
    ∧ carriesKey Fixture.bigIp0 get.
Proof.
  destruct (protocol_sends_get_then_put (P := Fixture.scripted) ["/a"] false
              (Fixture.boot [Fixture.answer 404 ""]) eq_refl)
    as (get & Hget & [Hone|(resp & p1 & dg & payload & put & Hdo & H200 & _)]).
  - exists get. split; [exact Hone|].
    by apply (newRequest_carriesKey (P := Fixture.scripted)) in Hget as [? _].
  - simpl in Hdo. unfold Fixture.answer in Hdo. simplify_eq.
Defined.

(** ** The Route Cache under the calls *)

Section Cache.

Context `{P : Platform}.

Implicit Types (sys : Sys) (it : Item) (log : list (Item * ItemResult)).

Lemma steps_log_items its sys it (r : ItemResult) :
  (it, r) ∈ fst (steps its sys) → it ∈ its.
Proof.
  revert sys. induction its as [|it' rest IH]; intros sys.
  - simpl. by rewrite elem_of_nil.
  - rewrite steps_cons.
    destruct (step it' sys) as [[r'|p] sys1];
      [|cbn [fst]; by rewrite elem_of_nil].
    specialize (IH sys1). destruct (steps rest sys1) as [log sys2].
    cbn [fst] in *. rewrite !elem_of_cons.
    intros [E|Hin]; [left; congruence|right; by apply IH].
Qed.

(** Items the protocol is not run for take silent turns. *)
Lemma steps_idle its sys :
  (∀ it, it ∈ its → itemPaths it (bigip sys) = None) →
  steps its sys = ((λ it, (it, Skipped)) <$> its, sys).
Proof.
  induction its as [|it rest IH]; intros Hidle; [done|].
  rewrite steps_cons, step_unfold, (Hidle it) by left.
  rewrite IH by (intros it' Hin; apply Hidle; by right). done.
Qed.

Lemma failures_skipped (its : list Item) :
  failures ((λ it, (it, Skipped)) <$> its) = [].
Proof. unfold failures. induction its as [|it rest IH]; [done|]. exact IH. Qed.

Lemma runCall_idle (c : Call) sys :
  (∀ it, it ∈ callItems c → itemPaths it (bigip sys) = None) →
  runCall c sys = (Returned None, sys).
Proof.
  intros Hidle.
  destruct (runCall_steps c sys) as (H1 & H2 & _).
  rewrite (steps_idle _ _ Hidle) in H1, H2. cbn [fst snd] in *.
  rewrite length_fmap in H2. specialize (H2 eq_refl).
  destruct (runCall c sys) as [o sys']. simpl in *. subst.
  unfold verdict. by rewrite failures_skipped.
Qed.

(** A call whose items all lack the label (for [AddRoutes]) or are not
    in the Route Cache (for [RemoveRoutes]) returns nil and leaves
    everything as it was: no request, no cache update.  It does not
    even need a URL that parses. *)
Theorem call_without_work_is_silent (c : Call) sys :
  (∀ it, it ∈ callItems c → itemPaths it (bigip sys) = None) →
  runCall c sys = (Returned None, sys).
Proof. exact (runCall_idle c sys). Qed.

(** [AddRoutes] never drops a name from the Route Cache, and what
    [RemoveRoutes] leaves in it is what was there, unchanged. *)
Theorem add_grows_remove_shrinks sys :
  (∀ services name,
     is_Some (Services (bigip sys) !! name) →
     is_Some (Services (bigip (snd (AddRoutes services sys))) !! name))
  ∧ (∀ names,
       Services (bigip (snd (RemoveRoutes names sys))) ⊆ Services (bigip sys)).
Proof.
  split.
  - intros services name Hin.
    destruct (runCall_steps (CallAdd services) sys) as (H1 & _).
    simpl in H1. rewrite H1. clear H1. revert sys Hin.
    induction services as [|s rest IH]; intros sys Hin; [done|].
    rewrite fmap_cons, steps_cons.
    destruct (step (AddItem s) sys) as [[r|p] sys1] eqn:Hstep;
      apply step_effect in Hstep as [_ Heff].
    + specialize (IH sys1). destruct (steps (AddItem <$> rest) sys1).
      cbn [snd] in *. apply IH.
      destruct r as [|e|]; try by rewrite Heff.
      destruct Heff as (paths & _ & ->). simpl.
      rewrite lookup_insert_is_Some.
      destruct (decide (SpecName (Spec s) = name)); eauto.
    + cbn [snd]. by rewrite Heff.
  - intros names.
    destruct (runCall_steps (CallRemove names) sys) as (H1 & _).
    simpl in H1. rewrite H1. clear H1. revert sys.
    induction names as [|n rest IH]; intros sys; [done|].
    rewrite fmap_cons, steps_cons.
    destruct (step (RemoveItem n) sys) as [[r|p] sys1] eqn:Hstep;
      apply step_effect in Hstep as [_ Heff].
    + specialize (IH sys1). destruct (steps (RemoveItem <$> rest) sys1).
      cbn [snd] in *. etrans; [exact IH|].
      destruct r as [|e|]; try by rewrite Heff.
      destruct Heff as (paths & _ & ->). simpl. apply delete_subseteq.
    + cbn [snd]. by rewrite Heff.
Qed.

(** A call leaves alone the entry of every name that none of its items
    bears, unlabelled services not counted. *)
Theorem calls_touch_only_their_names (c : Call) sys (name : string) :
  (∀ it, it ∈ callItems c → itemName it = name →
         ∃ s, it = AddItem s ∧ Labels (Spec s) !! SERVICE_PATH_LABEL = None) →
  Services (bigip (snd (runCall c sys))) !! name
  = Services (bigip sys) !! name.
Proof.
  intros Hother. destruct (runCall_steps c sys) as (-> & _).
  apply steps_untouched. intros it Hin Hname.
  destruct (Hother it (steps_log_items _ _ _ _ Hin) Hname) as (s & -> & Hnone).
  apply steps_applied_labelled in Hin. rewrite Hnone in Hin. by destruct Hin.
Qed.

Lemma Split_nonempty (s : string) (sep : ascii) : strings.Split s sep ≠ [].
Proof.
  destruct s as [|c s]; simpl; [done|].
  destruct (decide (c = sep)); [done|]. by destruct (strings.Split s sep).
Qed.

Lemma steps_values its sys (name : string) (paths : list string) :
  Services (bigip (snd (steps its sys))) !! name = Some paths →
  Services (bigip sys) !! name = Some paths
  ∨ ∃ s label,
      (AddItem s, Applied) ∈ fst (steps its sys)
      ∧ SpecName (Spec s) = name
      ∧ Labels (Spec s) !! SERVICE_PATH_LABEL = Some label
      ∧ paths = strings.Split (strings.ToLower label) ",".
Proof.
  revert sys. induction its as [|it rest IH]; intros sys; [by left|].
  rewrite steps_cons.
  destruct (step it sys) as [[r|p] sys1] eqn:Hstep;
    apply step_effect in Hstep as [_ Heff].
  - specialize (IH sys1). destruct (steps rest sys1) as [log sys2].
    cbn [fst snd] in *. intros Hfinal.
    destruct (IH Hfinal) as [Hmid|(s & label & Hin & Hrest)];
      [|right; exists s, label; split; [by right|done]].
    destruct r as [|e|]; try (left; by rewrite <- Heff).
    destruct Heff as (paths0 & Hpaths0 & Hcommit). rewrite Hcommit in Hmid.
    destruct it as [s|n]; simpl in *.
    + destruct (decide (SpecName (Spec s) = name)) as [Hname|Hname].
      * subst name. rewrite lookup_insert_eq in Hmid. simplify_eq.
        apply fmap_Some in Hpaths0 as (label & Hlabel & ->).
        right. exists s, label. split; [left|done].
      * rewrite lookup_insert_ne in Hmid by done. by left.
    + destruct (decide (n = name)) as [->|Hname].
      * by rewrite lookup_delete_eq in Hmid.
      * rewrite lookup_delete_ne in Hmid by done. by left.
  - cbn [fst snd]. rewrite Heff. by left.
Qed.

(** Starting from an empty Route Cache, whatever is cached under a name
    is the list that the label of a service of that name, handed to
    [AddRoutes], splits into after lower-casing; it is never the empty
    list. *)
Theorem cached_paths_come_from_labels (cs : list Call) sys
    (name : string) (paths : list string) :
  Services (bigip sys) = ∅ →
  Services (bigip (snd (runCalls cs sys))) !! name = Some paths →
  paths ≠ []
  ∧ ∃ services s label,
      CallAdd services ∈ cs ∧ s ∈ services
      ∧ SpecName (Spec s) = name
      ∧ Labels (Spec s) !! SERVICE_PATH_LABEL = Some label
      ∧ paths = strings.Split (strings.ToLower label) ",".
Proof.
  intros Hfresh. rewrite runCalls_steps. intros Hfinal.
  apply steps_values in Hfinal as [Hinit|(s & label & Hin & Hn & Hl & ->)].
  { by rewrite Hfresh, lookup_empty in Hinit. }
  split; [apply Split_nonempty|].
  apply steps_log_items, list_elem_of_bind in Hin as (c & Hitem & Hc).
  destruct c as [services|names]; simpl in Hitem;
    apply list_elem_of_fmap in Hitem as (x & E & Hx); simplify_eq.
  exists services, x, label. done.
Qed.

End Cache.

(** A run of [call_without_work_is_silent]: nothing is cached, and the
    peer would refuse any connection. *)
Lemma call_without_work_is_silent_witness :
  runCall (CallRemove ["web"; "api"]) (Fixture.boot [])
  = (Returned None, Fixture.boot []).
Proof.
  apply (call_without_work_is_silent (P := Fixture.scripted)
           (CallRemove ["web"; "api"]) (Fixture.boot [])).
  intros it Hin. simpl in Hin.
  apply elem_of_cons in Hin as [->|Hin]; [reflexivity|].
  apply list_elem_of_singleton in Hin as ->. reflexivity.
Defined.

(** A run of [calls_touch_only_their_names]: [web] is cached, [api] is
    removed. *)
Lemma calls_touch_only_their_names_witness :
  Services
    (bigip (snd (runCall (CallRemove ["api"])
                   (@mkSys Fixture.scripted
                      (setServices Fixture.bigIp0 {["web" := ["/web"]]})
                      [] [])))) !! "web"
  = Some ["/web"].
Proof.
  rewrite (calls_touch_only_their_names (P := Fixture.scripted)
             (CallRemove ["api"])
             (@mkSys Fixture.scripted
                (setServices Fixture.bigIp0 {["web" := ["/web"]]}) [] [])
             "web").
  - reflexivity.
  - intros it Hin Hname. simpl in Hin.
    apply list_elem_of_singleton in Hin as ->. discriminate Hname.
Defined.

(** A run of [cached_paths_come_from_labels]. *)
Lemma cached_paths_come_from_labels_witness :
  ["/orders"; "/billing"] ≠ []
  ∧ ∃ services s label,
      CallAdd services ∈ [CallAdd [Fixture.routed "shop" "/Orders,/Billing"]]
      ∧ s ∈ services
      ∧ SpecName (Spec s) = "shop"
      ∧ Labels (Spec s) !! SERVICE_PATH_LABEL = Some label
      ∧ ["/orders"; "/billing"]
        = strings.Split (strings.ToLower (U := @unicode Fixture.scripted) label)
            ",".
Proof.
  apply (cached_paths_come_from_labels (P := Fixture.scripted)
           [CallAdd [Fixture.routed "shop" "/Orders,/Billing"]]
           (Fixture.boot [Fixture.answer 200 "{}"; Fixture.answer 200 ""])
           "shop" ["/orders"; "/billing"]).
  - reflexivity.
  - vm_compute. reflexivity.
Defined.

(** ** Adding and then removing *)

Section RoundTrip.

Context `{P : Platform}.

Implicit Types (sys : Sys).

Lemma AddRoutes_single (s : Service) sys :
  AddRoutes [s] sys =
  match step (AddItem s) sys with
  | (Returned (Failed _), sys1) => (Returned (Some ErrAddRoutes), sys1)
  | (Returned _, sys1) => (Returned None, sys1)
  | (Panicked p, sys1) => (Panicked p, sys1)
  end.
Proof.
  unfold AddRoutes, AddRoutes_loop, bind. simpl.
  by destruct (addRoute s sys) as [[[|e|]|p] sys1].
Qed.

Lemma RemoveRoutes_single (name : string) sys :
  RemoveRoutes [name] sys =
  match step (RemoveItem name) sys with
  | (Returned (Failed _), sys1) => (Returned (Some ErrRemoveRoutes), sys1)
  | (Returned _, sys1) => (Returned None, sys1)
  | (Panicked p, sys1) => (Panicked p, sys1)
  end.
Proof.
  unfold RemoveRoutes, RemoveRoutes_loop, bind. simpl.
  by destruct (removeRoute name sys) as [[[|e|]|p] sys1].
Qed.

(** A single-item call that returns nil for an item the protocol is run
    for has run the protocol with success and committed. *)
Lemma single_success (it : Item) (paths : list string) sys sys' :
  itemPaths it (bigip sys) = Some paths →
  match it with
  | AddItem s => AddRoutes [s] sys
  | RemoveItem name => RemoveRoutes [name] sys
  end = (Returned None, sys') →
  ∃ sys0,
    updateDataGroup paths (isRemove it) sys = (Returned None, sys0)
    ∧ sys' = {| bigip := setServices (bigip sys0)
                           (commit it paths (Services (bigip sys0)));
                peer := peer sys0; wire := wire sys0 |}.
Proof.
  intros Hpaths Hcall.
  assert (step it sys = (Returned Applied, sys')) as Hstep.
  { destruct it as [s|name];
      [rewrite AddRoutes_single in Hcall|rewrite RemoveRoutes_single in Hcall];
      rewrite step_unfold, Hpaths in *;
      destruct (updateDataGroup paths _ sys) as [[[e|]|p] sys0];
      by simplify_eq. }
  rewrite step_unfold, Hpaths in Hstep.
  destruct (updateDataGroup paths (isRemove it) sys) as [[[e|]|p] sys0];
    simplify_eq. eauto.
Qed.

(** A call of [RemoveRoutes] for one cached name that returns nil has
    sent one GET and one PUT, the PUT carrying the fetched records
    without those that bear the name of a non-empty cached path, and has
    deleted the name from the Route Cache.  The paths are those of the
    cache; no label is looked at. *)
Theorem cached_removal (name : string) (paths : list string) sys sys' :
  Services (bigip sys) !! name = Some paths →
  RemoveRoutes [name] sys = (Returned None, sys') →
  Services (bigip sys') = delete name (Services (bigip sys))
  ∧ ∃ get resp p1 dg put,
      clientDo get (peer sys) = (inr resp, p1)
      ∧ jsonUnmarshal (Body resp) = Some dg
      ∧ wire sys' = wire sys ++ [get; put]
      ∧ ReqMethod get = GET ∧ ReqMethod put = PUT
      ∧ jsonMarshal
          {| Records := retained (Records dg)
                          (getRecords paths (Pattern (bigip sys))) |}
        = Some (ReqBody put).
Proof.
  intros Hcached Hcall.
  destruct (single_success (RemoveItem name) paths sys sys' Hcached Hcall)
    as (sys0 & Hrun & ->).
  apply updateDataGroup_success in Hrun
    as (get & resp & p1 & dg & payload & put & resp2
        & Hget & Hdo1 & H200 & Hdec & Henc & Hput & Hdo2 & H200' & Hwire & Hb).
  simpl. rewrite Hb. split; [done|].
  exists get, resp, p1, dg, put.
  apply newRequest_carriesKey in Hget as (_ & Hm1 & _).
  apply newRequest_carriesKey in Hput as (_ & Hm2 & Hbody).
  unfold applyRecords in Henc. rewrite removeRecords_retained in Henc.
  rewrite Hbody. done.
Qed.

(** Add, then remove.  A labelled service is added and then removed by
    name, both calls returning nil.  If the removal fetches the
    collection the add wrote, and no record fetched by the add bore the
    name of one of the service's paths, then four requests were sent, a
    GET, a PUT, the same GET and a PUT, the last one writing back the
    collection the add had fetched; and the name is out of the Route
    Cache. *)
Theorem add_then_remove_round_trip (s : Service) (label : string)
    sys sys1 sys2 (get : Request) (resp1 resp2 : Response) (p1 p2 : Peer)
    (dg : DataGroup) :
  Labels (Spec s) !! SERVICE_PATH_LABEL = Some label →
  AddRoutes [s] sys = (Returned None, sys1) →
  RemoveRoutes [SpecName (Spec s)] sys1 = (Returned None, sys2) →
  newRequest (bigip sys) GET EmptyString = Returned get →
  clientDo get (peer sys) = (inr resp1, p1) →
  jsonUnmarshal (Body resp1) = Some dg →
  clientDo get (peer sys1) = (inr resp2, p2) →
  jsonUnmarshal (Body resp2)
  = Some (applyRecords false dg
            (getRecords (strings.Split (strings.ToLower label) ",")
               (Pattern (bigip sys)))) →
  (∀ r path, r ∈ Records dg →
             path ∈ strings.Split (strings.ToLower label) "," →
             Name r ≠ path) →
  Services (bigip sys2) = delete (SpecName (Spec s)) (Services (bigip sys))
  ∧ ∃ put1 put2,
      wire sys2 = wire sys ++ [get; put1; get; put2]
      ∧ ReqMethod get = GET
      ∧ ReqMethod put1 = PUT
      ∧ ReqMethod put2 = PUT
      ∧ jsonMarshal dg = Some (ReqBody put2).
Proof.
  intros Hlabel Hadd Hrm Hget Hdo1 Hdec1 Hdo2 Hdec2 Hfree.
  set (paths := strings.Split (strings.ToLower label) ",") in *.
  destruct (single_success (AddItem s) paths sys sys1) as (sys0 & Hrun1 & Hsys1);
    [by simpl; rewrite Hlabel|done|].
  apply updateDataGroup_success in Hrun1
    as (get' & resp' & p1' & dg' & payload1 & put1 & resp''
        & Hget' & Hdo1' & _ & Hdec1' & _ & Hput1 & _ & _ & Hwire1 & Hb1).
  assert (get' = get) as -> by congruence.
  assert (resp' = resp1) as -> by congruence.
  assert (dg' = dg) as -> by congruence.
  assert (Hbig1 : bigip sys1
                  = setServices (bigip sys)
                      (<[SpecName (Spec s) := paths]> (Services (bigip sys))))
    by (rewrite Hsys1; simpl; by rewrite Hb1).
  assert (Hw1 : wire sys1 = wire sys ++ [get; put1])
    by (by rewrite Hsys1).
  clear Hsys1.
  destruct (single_success (RemoveItem (SpecName (Spec s))) paths sys1 sys2)
    as (sys3 & Hrun2 & Hsys2);
    [by rewrite Hbig1; simpl; rewrite lookup_insert_eq|done|].
  apply updateDataGroup_success in Hrun2
    as (get2 & resp2' & p2' & dg2 & payload2 & put2 & resp2''
        & Hget2 & Hdo2' & _ & Hdec2' & Henc2 & Hput2 & _ & _ & Hwire2 & Hb2).
  assert (get2 = get) as ->.
  { pose proof (newRequest_parses _ _ _ _ Hget) as Hu.
    rewrite newRequest_returns in Hget by done.
    rewrite Hbig1 in Hget2.
    rewrite newRequest_returns in Hget2 by done.
    simpl in Hget2. congruence. }
  assert (resp2' = resp2) as -> by congruence.
  rewrite Hdec2 in Hdec2'. injection Hdec2' as <-.
  rewrite Hbig1 in Henc2.
  change (jsonMarshal
            (applyRecords true
               (applyRecords false dg (getRecords paths (Pattern (bigip sys))))
               (getRecords paths (Pattern (bigip sys))))
          = Some payload2) in Henc2.
  rewrite remove_after_append in Henc2.
  2:{ intros r t Hr Ht Hname. apply elem_of_getRecords in Ht as [Ht _].
      by apply (Hfree r (Name t)). }
  rewrite Hsys2. simpl. rewrite Hb2, Hbig1. simpl.
  split; [by rewrite delete_insert_eq|].
  exists put1, put2. rewrite Hwire2, Hw1, <- app_assoc. simpl.
  apply newRequest_carriesKey in Hget as (_ & Hm0 & _).
  apply newRequest_carriesKey in Hput1 as (_ & Hm1 & _).
  apply newRequest_carriesKey in Hput2 as (_ & Hm & Hbody).
  rewrite Hbody. done.
Qed.

End RoundTrip.

(** A run of [cached_removal] on the store that keeps what it is sent. *)
Lemma cached_removal_witness :
  Services (bigip (snd (RemoveRoutes ["web"] Store.serving)))
  = delete "web" (Services (bigip Store.serving)).
Proof.
  refine (proj1 (cached_removal (P := Store.keeping) "web" ["/web"]
                   Store.serving (snd (RemoveRoutes ["web"] Store.serving))
                   _ _));
    [reflexivity|vm_compute; reflexivity].
Defined.

Example cached_removal_keeps_the_others :
  peer (snd (RemoveRoutes ["web"] Store.serving))
  = Fixture.encode {| Records := [ {| Name := "/api"; Data := "p" |} ] |}.
Proof. vm_compute. reflexivity. Qed.

(** A run of [add_then_remove_round_trip] on the store that keeps what
    it is sent: it holds [/old] before and after. *)
Lemma add_then_remove_round_trip_witness :
  peer (snd (RemoveRoutes ["shop"]
               (snd (AddRoutes [Fixture.routed "shop" "/Orders,/Billing"]
                       (Store.boot
                          (Fixture.encode
                             {| Records :=
                                  [ {| Name := "/old"; Data := "pool" |} ] |}))))))
  = Fixture.encode {| Records := [ {| Name := "/old"; Data := "pool" |} ] |}
  ∧ Services
      (bigip (snd (RemoveRoutes ["shop"]
                (snd (AddRoutes [Fixture.routed "shop" "/Orders,/Billing"]
                        (Store.boot
                           (Fixture.encode
                              {| Records :=
                                   [ {| Name := "/old"; Data := "pool" |} ] |})))))))
    = delete "shop" ∅.
Proof.
  split; [vm_compute; reflexivity|].
  apply (add_then_remove_round_trip (P := Store.keeping)
           (Fixture.routed "shop" "/Orders,/Billing") "/Orders,/Billing"
           (Store.boot
              (Fixture.encode
                 {| Records := [ {| Name := "/old"; Data := "pool" |} ] |}))
           (snd (AddRoutes [Fixture.routed "shop" "/Orders,/Billing"]
                   (Store.boot
                      (Fixture.encode
                         {| Records :=
                              [ {| Name := "/old"; Data := "pool" |} ] |}))))
           (snd (RemoveRoutes ["shop"]
                   (snd (AddRoutes [Fixture.routed "shop" "/Orders,/Billing"]
                           (Store.boot
                              (Fixture.encode
                                 {| Records :=
                                      [ {| Name := "/old";
                                           Data := "pool" |} ] |}))))))
           {| ReqMethod := GET; ReqUrl := Url Fixture.bigIp0;
              ReqHeader := [("Content-Type", "application/json");
                            (BIGIP_HEADER, Key Fixture.bigIp0)];
              ReqBody := EmptyString |}
           {| StatusCode := 200;
              Body := Fixture.encode
                        {| Records :=
                             [ {| Name := "/old"; Data := "pool" |} ] |} |}
           {| StatusCode := 200;
              Body := Fixture.encode
                        {| Records :=
                             [ {| Name := "/old"; Data := "pool" |};
                               {| Name := "/orders"; Data := "test-pattern" |};
                               {| Name := "/billing";
                                  Data := "test-pattern" |} ] |} |}
           (Fixture.encode
              {| Records := [ {| Name := "/old"; Data := "pool" |} ] |})
           (Fixture.encode
              {| Records :=
                   [ {| Name := "/old"; Data := "pool" |};
                     {| Name := "/orders"; Data := "test-pattern" |};
                     {| Name := "/billing"; Data := "test-pattern" |} ] |})
           {| Records := [ {| Name := "/old"; Data := "pool" |} ] |});
    try (vm_compute; reflexivity).
  intros r path Hr Hpath. simpl in Hr.
  apply list_elem_of_singleton in Hr as ->.
  vm_compute in Hpath.
  apply elem_of_cons in Hpath as [->|Hpath]; [done|].
  apply list_elem_of_singleton in Hpath as ->. done.
Defined.

(** ** Construction, read backwards *)

Section ConstructionConverse.

Context `{H : Machine}.

(** [NewBigIpFromEnv] returns only when everything was there: the
    configuration URL is set and not empty, the key file (the one named
    by [DF_BIGIP_KEY_FILE], or the default one when that variable is
    not set or empty) was read, and the configuration was fetched with
    status 200 and decoded; the file was read first, each once. *)
Theorem construction_returns_only_when_all_is_read (b : BigIp)
    (io : list IO) :
  NewBigIpFromEnv = (Returned b, io) →
  ∃ configApi keyFile content res config,
    Environ !! "DF_CONFIG_API" = Some configApi
    ∧ configApi ≠ EmptyString
    ∧ keyFile = match Environ !! "DF_BIGIP_KEY_FILE" with
                | Some (String c path) => String c path
                | _ => BIGIP_KEY_FILE
                end
    ∧ io = [IoReadFile keyFile; IoHttpGet configApi]
    ∧ ReadFile keyFile = inr content
    ∧ httpGet configApi = inr res
    ∧ StatusCode res = StatusOK
    ∧ jsonUnmarshalConfig (Body res) = inr config
    ∧ b = {| Url := (Host config +:+ DG_PATH) +:+ DataGroupName config;
             Key := strings.TrimSpace content;
             Services := ∅;
             Pattern := PoolPattern config |}.
Proof.
  unfold NewBigIpFromEnv, Getenv.
  destruct (Environ !! "DF_CONFIG_API") as [[|c configApi]|] eqn:Hapi;
    simpl; try discriminate.
  set (keyFile := match Environ !! "DF_BIGIP_KEY_FILE" with
                  | Some (String c' path) => String c' path
                  | _ => BIGIP_KEY_FILE
                  end).
  assert ((if (String.length (default EmptyString
                                (Environ !! "DF_BIGIP_KEY_FILE")) =? 0)%nat
           then BIGIP_KEY_FILE
           else default EmptyString (Environ !! "DF_BIGIP_KEY_FILE"))
          = keyFile) as ->.
  { unfold keyFile.
    by destruct (Environ !! "DF_BIGIP_KEY_FILE") as [[|c' path]|]. }
  unfold NewBigIp, readConfig.
  destruct (ReadFile keyFile) as [err|content] eqn:Hread; [discriminate|].
  destruct (httpGet (String c configApi)) as [err|res] eqn:Hget;
    [discriminate|].
  destruct (decide (StatusCode res ≠ StatusOK)) as [|H200]; [discriminate|].
  apply dec_stable in H200.
  destruct (jsonUnmarshalConfig (Body res)) as [err|config] eqn:Hdec;
    [discriminate|].
  intros [= <- <-].
  exists (String c configApi), keyFile, content, res, config.
  repeat split; done.
Qed.

End ConstructionConverse.

(** A run of [construction_returns_only_when_all_is_read]. *)
Lemma construction_returns_only_when_all_is_read_witness :
  ∃ configApi keyFile content res config,
    @Environ (Fixture.machine
                [("DF_CONFIG_API", "http://config.example/bigip");
                 ("DF_BIGIP_KEY_FILE", "")]) !! "DF_CONFIG_API"
    = Some configApi
    ∧ configApi ≠ EmptyString
    ∧ keyFile = BIGIP_KEY_FILE
    ∧ [IoReadFile BIGIP_KEY_FILE; IoHttpGet "http://config.example/bigip"]
      = [IoReadFile keyFile; IoHttpGet configApi]
    ∧ @ReadFile (Fixture.machine
                   [("DF_CONFIG_API", "http://config.example/bigip");
                    ("DF_BIGIP_KEY_FILE", "")]) keyFile
      = inr content
    ∧ @httpGet (Fixture.machine
                  [("DF_CONFIG_API", "http://config.example/bigip");
                   ("DF_BIGIP_KEY_FILE", "")]) configApi
      = inr res
    ∧ StatusCode res = StatusOK
    ∧ @jsonUnmarshalConfig
        (Fixture.machine
           [("DF_CONFIG_API", "http://config.example/bigip");
            ("DF_BIGIP_KEY_FILE", "")]) (Body res)
      = inr config
    ∧ Fixture.bigIp0
      = {| Url := (Host config +:+ DG_PATH) +:+ DataGroupName config;
           Key := strings.TrimSpace content;
           Services := ∅;
           Pattern := PoolPattern config |}.
Proof.
  apply (@construction_returns_only_when_all_is_read
           (Fixture.machine
              [("DF_CONFIG_API", "http://config.example/bigip");
               ("DF_BIGIP_KEY_FILE", "")])
           Fixture.bigIp0
           [IoReadFile BIGIP_KEY_FILE;
            IoHttpGet "http://config.example/bigip"]).
  vm_compute. reflexivity.
Defined.

(** ** One turn of the loop, and many *)

Section Turns.

Context `{P : Platform} `{H : Machine} `{C : Collaborators}.

Implicit Types (pr : Proc).

Lemma ext_emit pr e : ext (emit e pr) = ext pr.
Proof. done. Qed.

Lemma ext_setExt pr x : ext (setExt pr x) = x.
Proof. done. Qed.

Lemma ext_setSys pr s : ext (setSys pr s) = ext pr.
Proof. done. Qed.

Lemma ext_recordErrorIf pr err what : ext (recordErrorIf err what pr) = ext pr.
Proof. by destruct err. Qed.

Lemma sys_setSys pr s : sys (setSys pr s) = s.
Proof. done. Qed.

Lemma trace_emit pr e : trace (emit e pr) = trace pr ++ [e].
Proof. done. Qed.

Lemma trace_setExt pr x : trace (setExt pr x) = trace pr.
Proof. done. Qed.

Lemma trace_setSys pr s : trace (setSys pr s) = trace pr.
Proof. done. Qed.

Lemma trace_recordErrorIf pr err what :
  trace (recordErrorIf err what pr)
  = trace pr ++ (EvRecordError <$> recorded err what).
Proof. destruct err; simpl; [done|by rewrite app_nil_r]. Qed.

Lemma Proc_eq pr pr' :
  sys pr = sys pr' → ext pr = ext pr' → trace pr = trace pr' → pr = pr'.
Proof. destruct pr, pr'. simpl. by intros -> -> ->. Qed.

Ltac project :=
  repeat first
    [ rewrite sys_emit | rewrite sys_setExt | rewrite sys_recordErrorIf
    | rewrite sys_setSys
    | rewrite ext_emit | rewrite ext_setExt | rewrite ext_recordErrorIf
    | rewrite ext_setSys ].

(** A turn with a URL that parses, given what the collaborators answer:
    the state it leaves and the calls it makes, in order. *)
Lemma iteration_run pr (all new : list Service) (rem : list string)
    (e1 e2 e3 e4 : option error) (x1 x2 x3 x4 x5 : Ext) :
  urlParses (Url (bigip (sys pr))) = true →
  GetServices (ext pr) = ((all, e1), x1) →
  GetNewServices all x1 = ((new, e2), x2) →
  ServicesCreate new Retry RetryInterval x2 = (e3, x3) →
  GetRemovedServices all x3 = (rem, x4) →
  ServicesRemove rem Retry RetryInterval x4 = (e4, x5) →
  iteration pr
  = (Returned tt,
     {| sys := snd (RemoveRoutes rem (snd (AddRoutes new (sys pr))));
        ext := x5;
        trace :=
          trace pr
            ++ [EvGetServices]
            ++ (EvRecordError <$> recorded e1 "GetServices")
            ++ [EvGetNewServices]
            ++ (EvRecordError <$> recorded e2 "GetNewServices")
            ++ [EvServicesCreate new]
            ++ (EvRecordError <$> recorded e3 "ServicesCreate")
            ++ [EvAddRoutes new; EvGetRemovedServices; EvServicesRemove rem;
                EvRecordService (CachedServices x5)]
            ++ (EvRecordError <$> recorded e4 "ServicesRemove")
            ++ [EvRemoveRoutes rem; EvSleep Interval] |}).
Proof.
  intros Hu H1 H2 H3 H4 H5.
  destruct (runCall_returns (CallAdd new) (sys pr) Hu)
    as (r & s1 & Hadd & HU1).
  destruct (runCall_returns (CallRemove rem) s1) as (r' & s2 & Hrm & HU2);
    [congruence|].
  change (AddRoutes new (sys pr) = (Returned r, s1)) in Hadd.
  change (RemoveRoutes rem s1 = (Returned r', s2)) in Hrm.
  rewrite Hadd. cbn [snd]. rewrite Hrm. cbn [snd].
  unfold iteration.
  rewrite H1. cbn beta iota zeta. project.
  rewrite H2. cbn beta iota zeta. project.
  rewrite H3. cbn beta iota zeta. project.
  rewrite Hadd. cbn beta iota zeta. project.
  rewrite H4. cbn beta iota zeta. project.
  rewrite H5. cbn beta iota zeta. project.
  rewrite Hrm. cbn beta iota zeta.
  f_equal. apply Proc_eq.
  - by project.
  - by project.
  - rewrite ?trace_emit, ?trace_setSys, ?trace_recordErrorIf, ?trace_setExt.
    repeat (rewrite ?trace_emit, ?trace_setSys, ?trace_recordErrorIf,
              ?trace_setExt).
    project. cbn [trace]. rewrite <- !app_assoc. reflexivity.
Qed.

(** A turn of the loop, with a URL that parses, always completes: it
    hands the new services to [AddRoutes] and then the removed names to
    [RemoveRoutes], whatever the first returned; it calls the
    collaborators in the order of the source and
    [metrics.RecordError] exactly once for each of [GetServices],
    [GetNewServices], [ServicesCreate] and [ServicesRemove] that
    returned an error; and it ends with the sleep. *)
Theorem turn_synchronizes_and_records pr (all new : list Service)
    (rem : list string) (e1 e2 e3 e4 : option error) (x1 x2 x3 x4 x5 : Ext) :
  urlParses (Url (bigip (sys pr))) = true →
  GetServices (ext pr) = ((all, e1), x1) →
  GetNewServices all x1 = ((new, e2), x2) →
  ServicesCreate new Retry RetryInterval x2 = (e3, x3) →
  GetRemovedServices all x3 = (rem, x4) →
  ServicesRemove rem Retry RetryInterval x4 = (e4, x5) →
  ∃ pr',
    iteration pr = (Returned tt, pr')
    ∧ sys pr' = snd (RemoveRoutes rem (snd (AddRoutes new (sys pr))))
    ∧ ext pr' = x5
    ∧ trace pr'
      = trace pr
          ++ [EvGetServices]
          ++ (EvRecordError <$> recorded e1 "GetServices")
          ++ [EvGetNewServices]
          ++ (EvRecordError <$> recorded e2 "GetNewServices")
          ++ [EvServicesCreate new]
          ++ (EvRecordError <$> recorded e3 "ServicesCreate")
          ++ [EvAddRoutes new; EvGetRemovedServices; EvServicesRemove rem;
              EvRecordService (CachedServices x5)]
          ++ (EvRecordError <$> recorded e4 "ServicesRemove")
          ++ [EvRemoveRoutes rem; EvSleep Interval]
    ∧ recordedErrors pr'
      = recordedErrors pr
          ++ recorded e1 "GetServices" ++ recorded e2 "GetNewServices"
          ++ recorded e3 "ServicesCreate" ++ recorded e4 "ServicesRemove".
Proof.
  intros Hu H1 H2 H3 H4 H5.
  rewrite (iteration_run pr all new rem e1 e2 e3 e4 x1 x2 x3 x4 x5)
    by done.
  eexists. split; [done|]. cbn [sys ext trace].
  split; [done|]. split; [done|]. split; [done|].
  unfold recordedErrors. cbn [trace]. rewrite !omap_app.
  destruct e1, e2, e3, e4; cbn; by rewrite ?app_nil_r.
Qed.

Lemma iteration_sleeps pr :
  urlParses (Url (bigip (sys pr))) = true →
  ∃ pr', iteration pr = (Returned tt, pr')
         ∧ Url (bigip (sys pr')) = Url (bigip (sys pr))
         ∧ sleeps pr' = S (sleeps pr).
Proof.
  intros Hu.
  destruct (GetServices (ext pr)) as [[all e1] x1] eqn:H1.
  destruct (GetNewServices all x1) as [[new e2] x2] eqn:H2.
  destruct (ServicesCreate new Retry RetryInterval x2) as [e3 x3] eqn:H3.
  destruct (GetRemovedServices all x3) as [rem x4] eqn:H4.
  destruct (ServicesRemove rem Retry RetryInterval x4) as [e4 x5] eqn:H5.
  rewrite (iteration_run pr all new rem e1 e2 e3 e4 x1 x2 x3 x4 x5)
    by done.
  eexists. split; [done|]. cbn [sys trace]. split.
  - destruct (runCall_returns (CallAdd new) (sys pr) Hu)
      as (r & s1 & Hadd & HU1).
    destruct (runCall_returns (CallRemove rem) s1) as (r' & s2 & Hrm & HU2);
      [congruence|].
    change (AddRoutes new (sys pr) = (Returned r, s1)) in Hadd.
    change (RemoveRoutes rem s1 = (Returned r', s2)) in Hrm.
    rewrite Hadd. cbn [snd]. rewrite Hrm. cbn [snd]. congruence.
  - unfold sleeps. cbn [trace]. rewrite !List.filter_app, !length_app.
    destruct e1, e2, e3, e4; cbn; lia.
Qed.

(** With a URL that parses, [n] turns of the loop all complete, and
    the loop sleeps once in each, errors or not. *)
Theorem loop_sleeps_once_per_turn (n : nat) pr :
  urlParses (Url (bigip (sys pr))) = true →
  ∃ pr', loop n pr = (Returned tt, pr') ∧ sleeps pr' = sleeps pr + n.
Proof.
  revert pr. induction n as [|n IH]; intros pr Hu.
  - exists pr. split; [done|lia].
  - destruct (iteration_sleeps pr Hu) as (pr1 & Hturn & HUrl & Hs).
    destruct (IH pr1) as (pr' & Hloop & Hs'); [by rewrite HUrl|].
    exists pr'. split; [|lia].
    change (loop (S n) pr)
      with (match iteration pr with
            | (Returned _, pr0) => loop n pr0
            | (Panicked p, pr0) => (Panicked p, pr0)
            end).
    by rewrite Hturn.
Qed.

(** A turn in which no new service bears the label and no removed name
    is in the Route Cache leaves the route synchronizer as it was:
    nothing is sent to the route store.  It holds whatever the URL. *)
Theorem idle_turn_sends_nothing pr (all new : list Service)
    (rem : list string) (e1 e2 e3 : option error) (x1 x2 x3 x4 : Ext) :
  GetServices (ext pr) = ((all, e1), x1) →
  GetNewServices all x1 = ((new, e2), x2) →
  ServicesCreate new Retry RetryInterval x2 = (e3, x3) →
  GetRemovedServices all x3 = (rem, x4) →
  (∀ s, s ∈ new → Labels (Spec s) !! SERVICE_PATH_LABEL = None) →
  (∀ name, name ∈ rem → Services (bigip (sys pr)) !! name = None) →
  ∃ pr', iteration pr = (Returned tt, pr') ∧ sys pr' = sys pr.
Proof.
  intros H1 H2 H3 H4 Hnew Hrem.
  assert (Hadd : AddRoutes new (sys pr) = (Returned None, sys pr)).
  { apply (runCall_idle (CallAdd new)). intros it Hin.
    apply list_elem_of_fmap in Hin as (s & -> & Hs).
    cbn [itemPaths]. by rewrite (Hnew s Hs). }
  assert (Hrm : RemoveRoutes rem (sys pr) = (Returned None, sys pr)).
  { apply (runCall_idle (CallRemove rem)). intros it Hin.
    apply list_elem_of_fmap in Hin as (name & -> & Hname).
    cbn [itemPaths]. by apply Hrem. }
  destruct (ServicesRemove rem Retry RetryInterval x4) as [e4 x5] eqn:H5.
  unfold iteration.
  rewrite H1. cbn beta iota zeta. project.
  rewrite H2. cbn beta iota zeta. project.
  rewrite H3. cbn beta iota zeta. project.
  rewrite Hadd. cbn beta iota zeta. project.
  rewrite H4. cbn beta iota zeta. project.
  rewrite H5. cbn beta iota zeta. project.
  rewrite Hrm. cbn beta iota zeta.
  eexists. split; [done|]. by project.
Qed.

End Turns.

(** A run of [turn_synchronizes_and_records] on the fixture cluster: the
    first turn, with the route store refusing. *)
Lemma turn_synchronizes_and_records_witness :
  ∃ pr',
    @iteration Fixture.scripted
      (Fixture.cluster "http://proxy:8080/v1/docker-flow-proxy/reconfigure")
      (@mkProc Fixture.scripted
         (Fixture.cluster "http://proxy:8080/v1/docker-flow-proxy/reconfigure")
         (Fixture.boot [Fixture.answer 404 ""]) 0%nat [])
    = (Returned tt, pr')
    ∧ sys pr'
      = snd (RemoveRoutes []
               (snd (AddRoutes [Fixture.routed "web" "/web"]
                       (Fixture.boot [Fixture.answer 404 ""]))))
    ∧ ext pr' = 1%nat.
Proof.
  destruct (@turn_synchronizes_and_records Fixture.scripted
              (Fixture.cluster
                 "http://proxy:8080/v1/docker-flow-proxy/reconfigure")
              (@mkProc Fixture.scripted
                 (Fixture.cluster
                    "http://proxy:8080/v1/docker-flow-proxy/reconfigure")
                 (Fixture.boot [Fixture.answer 404 ""]) 0%nat [])
              [Fixture.routed "web" "/web"] [Fixture.routed "web" "/web"] []
              None None None None 1%nat 1%nat 1%nat 1%nat 1%nat
              eq_refl eq_refl eq_refl eq_refl eq_refl eq_refl)
    as (pr' & Hrun & Hsys & Hext & _).
  exists pr'. split; [exact Hrun|]. split; [exact Hsys|exact Hext].
Defined.

(** A run of [loop_sleeps_once_per_turn]: three turns. *)
Lemma loop_sleeps_once_per_turn_witness :
  ∃ pr',
    @loop Fixture.scripted
      (Fixture.cluster "http://proxy:8080/v1/docker-flow-proxy/reconfigure")
      3
      (@mkProc Fixture.scripted
         (Fixture.cluster "http://proxy:8080/v1/docker-flow-proxy/reconfigure")
         (Fixture.boot [Fixture.answer 404 ""]) 0%nat [])
    = (Returned tt, pr')
    ∧ sleeps pr' = 3%nat.
Proof.
  apply (@loop_sleeps_once_per_turn Fixture.scripted
           (Fixture.cluster
              "http://proxy:8080/v1/docker-flow-proxy/reconfigure")
           3
           (@mkProc Fixture.scripted
              (Fixture.cluster
                 "http://proxy:8080/v1/docker-flow-proxy/reconfigure")
              (Fixture.boot [Fixture.answer 404 ""]) 0%nat [])).
  reflexivity.
Defined.

(** A run of [idle_turn_sends_nothing]: [web] is cached; the new
    service [db] bears no path label and the removed name [gone] is not
    cached.  The peer would refuse any connection. *)
Lemma idle_turn_sends_nothing_witness :
  ∃ pr',
    @iteration Fixture.scripted Fixture.backstage
      (@mkProc Fixture.scripted Fixture.backstage
         (@mkSys Fixture.scripted
            (setServices Fixture.bigIp0 {["web" := ["/web"]]}) [] [])
         0%nat [])
    = (Returned tt, pr')
    ∧ sys pr'
      = @mkSys Fixture.scripted
          (setServices Fixture.bigIp0 {["web" := ["/web"]]}) [] [].
Proof.
  apply (@idle_turn_sends_nothing Fixture.scripted Fixture.backstage
           (@mkProc Fixture.scripted Fixture.backstage
              (@mkSys Fixture.scripted
                 (setServices Fixture.bigIp0 {["web" := ["/web"]]}) [] [])
              0%nat [])
           [Fixture.service "db" [("com.df.notify", "true")]]
           [Fixture.service "db" [("com.df.notify", "true")]]
           ["gone"] None None None
           1%nat 1%nat 1%nat 1%nat
           eq_refl eq_refl eq_refl eq_refl).
  - intros s Hs. apply list_elem_of_singleton in Hs as ->. reflexivity.
  - intros name Hname. apply list_elem_of_singleton in Hname as ->.
    vm_compute. reflexivity.
Defined.

(** ** A URL that does not parse, and a name removed twice *)

Section Edges.

Context `{P : Platform}.

Implicit Types (sys : Sys) (it : Item).

(** When [http.NewRequest] refuses the URL of the receiver, a call with
    at least one item to work on (a labelled service, a cached name)
    panics on the nil request at the first such item: nothing was sent,
    nothing was cached or deleted, and no error is returned. *)
Theorem unparsable_url_panics_at_first_work (c : Call) sys :
  urlParses (Url (bigip sys)) = false →
  (∃ it, it ∈ callItems c ∧ is_Some (itemPaths it (bigip sys))) →
  runCall c sys = (Panicked PanicNilDeref, sys).
Proof.
  intros Hu (it & Hin & Hwork).
  destruct c as [services|names]; simpl in *;
    apply list_elem_of_fmap in Hin as (x & -> & Hx); simpl in Hwork.
  - unfold AddRoutes, bind.
    rewrite AddRoutes_loop_unparsable; [done|done|].
    exists x. split; [done|]. by apply fmap_is_Some in Hwork.
  - unfold RemoveRoutes, bind.
    rewrite RemoveRoutes_loop_unparsable; [done|done|]. eauto.
Qed.

(** A removal that returned nil need not be repeated: the same call
    made again returns nil and changes nothing, and sends nothing. *)
Theorem removal_is_idempotent (name : string) sys sys' :
  RemoveRoutes [name] sys = (Returned None, sys') →
  RemoveRoutes [name] sys' = (Returned None, sys').
Proof.
  intros Hcall.
  assert (Services (bigip sys') !! name = None) as Hgone.
  { destruct (Services (bigip sys) !! name) as [paths|] eqn:Hcached.
    - destruct (single_success (RemoveItem name) paths sys sys' Hcached Hcall)
        as (sys0 & _ & ->).
      simpl. apply lookup_delete_eq.
    - assert (runCall (CallRemove [name]) sys = (Returned None, sys))
        as Hidle.
      { apply runCall_idle. intros it Hin. simpl in Hin.
        apply list_elem_of_singleton in Hin as ->. done. }
      change (RemoveRoutes [name] sys = (Returned None, sys)) in Hidle.
      rewrite Hidle in Hcall. by simplify_eq. }
  apply (runCall_idle (CallRemove [name]) sys').
  intros it Hin. simpl in Hin.
  apply list_elem_of_singleton in Hin as ->. done.
Qed.

End Edges.

(** A run of [unparsable_url_panics_at_first_work]: a host with a space
    in it; [db] has no label and is passed over, [web] has one. *)
Lemma unparsable_url_panics_at_first_work_witness :
  runCall
    (CallAdd [Fixture.service "db" []; Fixture.routed "web" "/web"])
    (@mkSys Fixture.scripted
       {| Url := "http://big ip" +:+ DG_PATH +:+ "routes";
          Key := "test-key-value"; Services := ∅; Pattern := "test-pattern" |}
       [Fixture.answer 200 "{}"; Fixture.answer 200 ""] [])
  = (Panicked PanicNilDeref,
     @mkSys Fixture.scripted
       {| Url := "http://big ip" +:+ DG_PATH +:+ "routes";
          Key := "test-key-value"; Services := ∅; Pattern := "test-pattern" |}
       [Fixture.answer 200 "{}"; Fixture.answer 200 ""] []).
Proof.
  apply (unparsable_url_panics_at_first_work (P := Fixture.scripted)
           (CallAdd [Fixture.service "db" []; Fixture.routed "web" "/web"])).
  - reflexivity.
  - exists (AddItem (Fixture.routed "web" "/web")). split.
    + simpl. right. left.
    + vm_compute. eauto.
Defined.

(** A run of [removal_is_idempotent] on the store that keeps what it is
    sent. *)
Lemma removal_is_idempotent_witness :
  RemoveRoutes ["web"] (snd (RemoveRoutes ["web"] Store.serving))
  = (Returned None, snd (RemoveRoutes ["web"] Store.serving)).
Proof.
  apply (removal_is_idempotent (P := Store.keeping) "web" Store.serving).
  vm_compute. reflexivity.
Defined.
